(** * The outbound sockets manager of the ZeroMQ driver

    A shallow embedding of
    [oslo_messaging/_drivers/zmq_driver/client/publishers/zmq_publisher_base.py]:
    the exception [UnsupportedSendPattern] and the class [SocketsManager]
    with its dictionary [outbound_sockets], keyed by [str(target)] and
    holding pairs [(socket, timestamp)].

    Python objects are mutable and shared, so sockets live in a heap
    indexed by their identity and the dictionary stores identities.  The
    methods are written in a state-and-exception monad: a raised exception
    keeps every mutation made before it, as in Python. *)

From Stdlib Require Import ZArith Ascii String List.
From stdpp Require Import gmap strings list fin_maps.

Local Open Scope string_scope.
Local Open Scope list_scope.
Local Open Scope Z_scope.

(** ** Exceptions *)

(** An exception object: the name of its class and its message. *)
Record exn : Type := mk_exn { exn_class : string; exn_message : string }.

(** The [%] operator for a format with [%s] conversions and a single string
    argument: the first [%s] is replaced by the argument. *)
Fixpoint percent_s (fmt arg : string) : string :=
  match fmt with
  | EmptyString => EmptyString
  | String c rest =>
      match rest with
      | String d rest' =>
          if (Ascii.eqb c "%"%char && Ascii.eqb d "s"%char)%bool
          then (arg ++ rest')%string
          else String c (percent_s rest arg)
      | EmptyString => String c EmptyString
      end
  end.

(** Modelled from the spec: the base class [rpc_common.RPCException] and the
    translation marker [_LE] are imported, not defined in this file.  The
    marker is taken to return its message identifier, and the base
    constructor to keep the message it receives: the error "carries" it. *)
Definition _LE (msg : string) : string := msg.

Definition RPCException (cls message : string) : exn :=
  {| exn_class := cls; exn_message := message |}.

(** [UnsupportedSendPattern.__init__] *)
Definition UnsupportedSendPattern (pattern_name : string) : exn :=
  let errmsg := percent_s (_LE "Sending pattern %s is unsupported.") pattern_name in
  RPCException "UnsupportedSendPattern" errmsg.

(** [needle] occurs in [hay]. *)
Definition occurs_in (needle hay : string) : Prop :=
  exists before after, hay = (before ++ needle ++ after)%string.

(** ** Sockets, the manager and the world around it *)

Definition sock_id := nat.
Definition Host := string.
Definition Address := string.

(** Modelled from the spec: the transport connection [zmq_socket.ZmqSocket]
    is imported.  It is bound to a context, accumulates the hosts and
    addresses it has been connected to, and can be closed; closing an
    already closed socket does not raise. *)
Record ZmqSocket : Type := mk_socket {
  sk_context : nat;
  sk_socket_type : Z;
  sk_hosts : list Host;
  sk_addresses : list Address;
  sk_closed : bool
}.

Definition sk_add_host (h : Host) (sk : ZmqSocket) : ZmqSocket :=
  {| sk_context := sk_context sk; sk_socket_type := sk_socket_type sk;
     sk_hosts := sk_hosts sk ++ [h]; sk_addresses := sk_addresses sk;
     sk_closed := sk_closed sk |}.

Definition sk_add_address (a : Address) (sk : ZmqSocket) : ZmqSocket :=
  {| sk_context := sk_context sk; sk_socket_type := sk_socket_type sk;
     sk_hosts := sk_hosts sk; sk_addresses := sk_addresses sk ++ [a];
     sk_closed := sk_closed sk |}.

Definition sk_close (sk : ZmqSocket) : ZmqSocket :=
  {| sk_context := sk_context sk; sk_socket_type := sk_socket_type sk;
     sk_hosts := sk_hosts sk; sk_addresses := sk_addresses sk;
     sk_closed := true |}.

Definition sk_add_hosts (hs : list Host) (sk : ZmqSocket) : ZmqSocket :=
  {| sk_context := sk_context sk; sk_socket_type := sk_socket_type sk;
     sk_hosts := sk_hosts sk ++ hs; sk_addresses := sk_addresses sk;
     sk_closed := sk_closed sk |}.

(** [sk'] is [sk] at a later time: the same socket of the same context,
    with the links it had and possibly more, and closed if [sk] was. *)
Definition grown (sk sk' : ZmqSocket) : Prop :=
  sk_context sk' = sk_context sk
  /\ sk_socket_type sk' = sk_socket_type sk
  /\ (exists more, sk_hosts sk' = sk_hosts sk ++ more)
  /\ (exists more, sk_addresses sk' = sk_addresses sk ++ more)
  /\ (sk_closed sk = true -> sk_closed sk' = true).

(** The fields of a [SocketsManager] that never change after [__init__]:
    [conf.zmq_target_expire], the broker address that
    [zmq_address.get_broker_address(conf)] derives from [conf],
    [listener_type], [socket_type] and [zmq_context]. *)
Record SocketsManager : Type := mk_manager {
  zmq_target_expire : Z;
  broker_address : Address;
  listener_type : Z;
  socket_type : Z;
  zmq_context : nat
}.

Inductive result (A : Type) : Type :=
| Return (a : A)
| Raise (e : exn).
Arguments Return {A} a.
Arguments Raise {A} e.

(** The mutable state: the heap of sockets, the dictionary
    [self.outbound_sockets], and what the collaborators have been asked so
    far: the number of clock readings, the discovery lookups and the number
    of connect calls. *)
Record World (Target : Type) : Type := mk_world {
  heap : gmap sock_id ZmqSocket;
  next_sock : sock_id;
  outbound_sockets : gmap string (sock_id * Z);
  ticks : nat;
  lookups : list (Target * string);
  connects : nat
}.
Arguments mk_world {Target}.
Arguments heap {Target}.
Arguments next_sock {Target}.
Arguments outbound_sockets {Target}.
Arguments ticks {Target}.
Arguments lookups {Target}.
Arguments connects {Target}.

(** The collaborators.  A target is opaque: only [str(target)] is used, as
    the cache key.  [zmq_names.socket_type_str] is imported.  [time.time()],
    [matchmaker.get_hosts] and the connect methods of a socket answer by the
    number of calls they have received so far, so that any behaviour,
    raising or not, is covered.  Clock readings and the expiry setting are
    exact numbers. *)
Class Env (Target : Type) : Type := mk_env {
  str : Target -> string;
  socket_type_str : Z -> string;
  clock : nat -> Z;
  matchmaker_get_hosts : nat -> Target -> string -> result (list Host);
  connect_host_error : nat -> sock_id -> Host -> option exn;
  connect_address_error : nat -> sock_id -> Address -> option exn
}.

Section Manager.

Context {Target : Type} `{E : Env Target}.

Definition M (A : Type) : Type := World Target -> result A * World Target.

Definition ret {A} (a : A) : M A := fun w => (Return a, w).

Definition bind {A B} (m : M A) (k : A -> M B) : M B :=
  fun w =>
    match m w with
    | (Return a, w') => k a w'
    | (Raise e, w') => (Raise e, w')
    end.

Notation "x <- m ;; k" := (bind m (fun x => k))
  (at level 100, m at next level, right associativity).
Notation "m ;;; k" := (bind m (fun _ => k))
  (at level 100, right associativity).

Definition set_heap (h : gmap sock_id ZmqSocket) (w : World Target) : World Target :=
  {| heap := h; next_sock := next_sock w;
     outbound_sockets := outbound_sockets w; ticks := ticks w;
     lookups := lookups w; connects := connects w |}.

Definition set_outbound_sockets (d : gmap string (sock_id * Z)) (w : World Target)
  : World Target :=
  {| heap := heap w; next_sock := next_sock w;
     outbound_sockets := d; ticks := ticks w;
     lookups := lookups w; connects := connects w |}.

Definition tick (w : World Target) : World Target :=
  {| heap := heap w; next_sock := next_sock w;
     outbound_sockets := outbound_sockets w; ticks := S (ticks w);
     lookups := lookups w; connects := connects w |}.

Definition log_lookup (target : Target) (kind : string) (w : World Target)
  : World Target :=
  {| heap := heap w; next_sock := next_sock w;
     outbound_sockets := outbound_sockets w; ticks := ticks w;
     lookups := lookups w ++ [(target, kind)]; connects := connects w |}.

Definition count_connect (w : World Target) : World Target :=
  {| heap := heap w; next_sock := next_sock w;
     outbound_sockets := outbound_sockets w; ticks := ticks w;
     lookups := lookups w; connects := S (connects w) |}.

(** [time.time()] *)
Definition time_time : M Z :=
  fun w => (Return (clock (ticks w)), tick w).

(** [self.matchmaker.get_hosts(target, kind)] *)
Definition get_hosts (target : Target) (kind : string) : M (list Host) :=
  fun w => (matchmaker_get_hosts (length (lookups w)) target kind,
            log_lookup target kind w).

(** [socket.connect_to_host(host)] *)
Definition connect_to_host (socket : sock_id) (host : Host) : M unit :=
  fun w =>
    match connect_host_error (connects w) socket host with
    | Some e => (Raise e, count_connect w)
    | None =>
        (Return tt,
         count_connect (set_heap (alter (sk_add_host host) socket (heap w)) w))
    end.

(** [socket.connect_to_address(address)] *)
Definition connect_to_address (socket : sock_id) (address : Address) : M unit :=
  fun w =>
    match connect_address_error (connects w) socket address with
    | Some e => (Raise e, count_connect w)
    | None =>
        (Return tt,
         count_connect (set_heap (alter (sk_add_address address) socket (heap w)) w))
    end.

(** [socket.close()] *)
Definition close (socket : sock_id) : M unit :=
  fun w => (Return tt, set_heap (alter sk_close socket (heap w)) w).

(** [for x in xs: body(x)] *)
Fixpoint for_each {A} (xs : list A) (body : A -> M unit) : M unit :=
  match xs with
  | [] => ret tt
  | x :: xs' => body x ;;; for_each xs' body
  end.

Variable self : SocketsManager.

(** [zmq_socket.ZmqSocket(self.conf, self.zmq_context, self.socket_type)] *)
Definition fresh_socket : ZmqSocket :=
  {| sk_context := zmq_context self; sk_socket_type := socket_type self;
     sk_hosts := []; sk_addresses := []; sk_closed := false |}.

Definition new_ZmqSocket : M sock_id :=
  fun w =>
    (Return (next_sock w),
     {| heap := <[next_sock w := fresh_socket]> (heap w);
        next_sock := S (next_sock w);
        outbound_sockets := outbound_sockets w; ticks := ticks w;
        lookups := lookups w; connects := connects w |}).

(** ** The methods of [SocketsManager] *)

(** The state after [__init__]. *)
Definition init_world : World Target :=
  {| heap := ∅; next_sock := 0%nat; outbound_sockets := ∅; ticks := 0%nat;
     lookups := []; connects := 0%nat |}.

Definition _track_socket (socket : sock_id) (target : Target) : M unit :=
  tm <- time_time ;;
  fun w =>
    (Return tt,
     set_outbound_sockets (<[str target := (socket, tm)]> (outbound_sockets w)) w).

(** [zmq_names.socket_type_str(self.listener_type)] *)
Definition kind : string := socket_type_str (listener_type self).

Definition _get_hosts_and_connect (socket : sock_id) (target : Target) : M unit :=
  hosts <- get_hosts target kind ;;
  for_each hosts (connect_to_host socket) ;;;
  _track_socket socket target.

(** The chained comparison [0 <= expire <= time.time() - tm] reads the
    clock only when its first half holds.  A missing key raises
    [KeyError]. *)
Definition _check_for_new_hosts (target : Target) : M sock_id :=
  fun w =>
    match outbound_sockets w !! str target with
    | None => (Raise (mk_exn "KeyError" (str target)), w)
    | Some (socket, tm) =>
        (if 0 <=? zmq_target_expire self
         then
           now <- time_time ;;
           if zmq_target_expire self <=? now - tm
           then _get_hosts_and_connect socket target ;;; ret socket
           else ret socket
         else ret socket) w
    end.

Definition get_socket (target : Target) : M sock_id :=
  fun w =>
    (if decide (is_Some (outbound_sockets w !! str target))
     then _check_for_new_hosts target
     else
       socket <- new_ZmqSocket ;;
       _get_hosts_and_connect socket target ;;;
       ret socket) w.

Definition get_socket_to_broker (target : Target) : M sock_id :=
  socket <- new_ZmqSocket ;;
  _track_socket socket target ;;;
  let address := broker_address self in
  connect_to_address socket address ;;;
  ret socket.

Definition cleanup : M unit :=
  fun w =>
    for_each (map_to_list (outbound_sockets w))
             (fun '(_, (socket, tm)) => close socket) w.

(** ** Sequences of calls *)

(** The state after [n] connect calls on [socket], of which those to the
    hosts [linked] succeeded. *)
Definition after_connects (socket : sock_id) (linked : list Host) (n : nat)
  (w : World Target) : World Target :=
  {| heap := alter (sk_add_hosts linked) socket (heap w);
     next_sock := next_sock w; outbound_sockets := outbound_sockets w;
     ticks := ticks w; lookups := lookups w;
     connects := (n + connects w)%nat |}.

(** Every connect call of the loop over [hosts], started in [w], succeeds. *)
Definition connects_ok (socket : sock_id) (hosts : list Host) (w : World Target)
  : Prop :=
  forall i h, hosts !! i = Some h ->
              connect_host_error (connects w + i)%nat socket h = None.

Inductive call : Type :=
| Call_get_socket (target : Target)
| Call_get_socket_to_broker (target : Target)
| Call_cleanup.

(** The state a call leaves behind, whether it returns or raises. *)
Definition do_call (w : World Target) (c : call) : World Target :=
  match c with
  | Call_get_socket t => (get_socket t w).2
  | Call_get_socket_to_broker t => (get_socket_to_broker t w).2
  | Call_cleanup => (cleanup w).2
  end.

Definition run (cs : list call) (w : World Target) : World Target :=
  fold_left do_call cs w.

Definition is_cleanup (c : call) : bool :=
  match c with
  | Call_cleanup => true
  | _ => false
  end.

(** [socket] is the connection of some entry of the dictionary. *)
Definition tracked (w : World Target) (socket : sock_id) : Prop :=
  exists key tm, outbound_sockets w !! key = Some (socket, tm).

(** [socket] exists and has been closed. *)
Definition is_closed (w : World Target) (socket : sock_id) : Prop :=
  exists sk, heap w !! socket = Some sk /\ sk_closed sk = true.

(** The test of [_check_for_new_hosts] for an entry stamped [tm], read at
    the next clock reading of [w]. *)
Definition expired (w : World Target) (tm : Z) : Prop :=
  0 <= zmq_target_expire self /\ zmq_target_expire self <= clock (ticks w) - tm.

(** [get_socket target] would query discovery in [w]: the target has no
    entry, or its entry has expired. *)
Definition needs_lookup (target : Target) (w : World Target) : Prop :=
  match outbound_sockets w !! str target with
  | None => True
  | Some (_, tm) => expired w tm
  end.

(** What a call for [target] may change: it works on one socket [s], either
    the one cached for the target or one it has just created, and it either
    leaves the dictionary alone or stamps [s] under the target's key. *)
Definition step_shape (target : Target) (w w' : World Target) : Prop :=
  exists (s : sock_id) (f : ZmqSocket -> ZmqSocket),
    (((exists tm, outbound_sockets w !! str target = Some (s, tm))
      /\ heap w' = alter f s (heap w) /\ next_sock w' = next_sock w)
     \/ (s = next_sock w
         /\ heap w' = alter f s (<[s := fresh_socket]> (heap w))
         /\ next_sock w' = S (next_sock w)))
    /\ (ticks w <= ticks w')%nat
    /\ (outbound_sockets w' = outbound_sockets w
        \/ exists n, (ticks w <= n < ticks w')%nat
                     /\ outbound_sockets w'
                        = <[str target := (s, clock n)]> (outbound_sockets w)).

(** The clock never goes back. *)
Definition monotone_clock : Prop :=
  forall i j, (i <= j)%nat -> clock i <= clock j.

(** The socket [get_socket target] works on in [w]: the cached one, or the
    one it is about to create. *)
Definition working_socket (target : Target) (w : World Target) : sock_id :=
  match outbound_sockets w !! str target with
  | Some (socket, _) => socket
  | None => next_sock w
  end.

(** What every state produced by the manager satisfies: identities are
    handed out in order, every tracked socket exists, no socket is tracked
    under two keys, and every timestamp is a past clock reading. *)
Record wf (w : World Target) : Prop := mk_wf {
  wf_alloc : forall i, is_Some (heap w !! i) -> (i < next_sock w)%nat;
  wf_tracked : forall key i tm,
      outbound_sockets w !! key = Some (i, tm) -> is_Some (heap w !! i);
  wf_inj : forall k1 k2 i tm1 tm2,
      outbound_sockets w !! k1 = Some (i, tm1) ->
      outbound_sockets w !! k2 = Some (i, tm2) -> k1 = k2;
  wf_stamp : forall key i tm,
      outbound_sockets w !! key = Some (i, tm) ->
      exists n, (n < ticks w)%nat /\ tm = clock n
}.

End Manager.

(** ** A concrete setting

    Targets are their own keys, the clock reads 0, 5, 12, 12, ... and
    discovery answers with two hosts. *)

Definition example_clock (n : nat) : Z :=
  match n with
  | O => 0
  | 1%nat => 5
  | _ => 12
  end.

Definition example_env : Env string :=
  {| str := fun t => t;
     socket_type_str := fun _ => "ROUTER";
     clock := example_clock;
     matchmaker_get_hosts := fun _ _ _ => Return ["host-1"; "host-2"];
     connect_host_error := fun _ _ _ => None;
     connect_address_error := fun _ _ _ => None |}.

Definition DiscoveryError : exn := mk_exn "DiscoveryError" "no matchmaker".

Definition ConnectError : exn := mk_exn "ZMQError" "connection refused".

(** Discovery answers the first lookup and raises from the second on. *)
Definition flaky_discovery_env : Env string :=
  {| str := fun t => t;
     socket_type_str := fun _ => "ROUTER";
     clock := example_clock;
     matchmaker_get_hosts := fun n _ _ =>
       match n with
       | O => Return ["host-1"]
       | _ => Raise DiscoveryError
       end;
     connect_host_error := fun _ _ _ => None;
     connect_address_error := fun _ _ _ => None |}.

(** Discovery raises at once. *)
Definition no_discovery_env : Env string :=
  {| str := fun t => t;
     socket_type_str := fun _ => "ROUTER";
     clock := example_clock;
     matchmaker_get_hosts := fun _ _ _ => Raise DiscoveryError;
     connect_host_error := fun _ _ _ => None;
     connect_address_error := fun _ _ _ => None |}.

(** The second connect call raises. *)
Definition refusing_env : Env string :=
  {| str := fun t => t;
     socket_type_str := fun _ => "ROUTER";
     clock := example_clock;
     matchmaker_get_hosts := fun _ _ _ => Return ["host-1"; "host-2"];
     connect_host_error := fun n _ _ =>
       match n with
       | 1%nat => Some ConnectError
       | _ => None
       end;
     connect_address_error := fun _ _ _ => None |}.

(** The first connect calls succeed, the fourth raises. *)
Definition refusing_later_env : Env string :=
  {| str := fun t => t;
     socket_type_str := fun _ => "ROUTER";
     clock := example_clock;
     matchmaker_get_hosts := fun _ _ _ => Return ["host-1"; "host-2"];
     connect_host_error := fun n _ _ =>
       match n with
       | 3%nat => Some ConnectError
       | _ => None
       end;
     connect_address_error := fun _ _ _ => None |}.

Definition example_manager (expire : Z) : SocketsManager :=
  {| zmq_target_expire := expire; broker_address := "tcp://broker:9501";
     listener_type := 6; socket_type := 5; zmq_context := 0%nat |}.

(** * Properties *)

Section Facts.

Context {Target : Type} `{E : Env Target}.
Variable self : SocketsManager.
Implicit Types (w : World Target) (t : Target) (socket : sock_id).

Lemma world_eq w w' :
  heap w = heap w' -> next_sock w = next_sock w' ->
  outbound_sockets w = outbound_sockets w' -> ticks w = ticks w' ->
  lookups w = lookups w' -> connects w = connects w' -> w = w'.
Proof. destruct w, w'; simpl; intros; subst; reflexivity. Qed.

Lemma sk_add_hosts_nil sk : sk_add_hosts [] sk = sk.
Proof. destruct sk; unfold sk_add_hosts; simpl. by rewrite app_nil_r. Qed.

Lemma sk_add_hosts_cons h hs sk :
  sk_add_hosts hs (sk_add_host h sk) = sk_add_hosts (h :: hs) sk.
Proof.
  destruct sk; unfold sk_add_hosts, sk_add_host; simpl.
  by rewrite <- app_assoc.
Qed.

Lemma alter_add_hosts_nil socket (m : gmap sock_id ZmqSocket) :
  alter (sk_add_hosts []) socket m = m.
Proof.
  apply map_eq; intros i. destruct (decide (socket = i)) as [->|Hne].
  - rewrite lookup_alter_eq. destruct (m !! i); simpl; [|done].
    by rewrite sk_add_hosts_nil.
  - by rewrite lookup_alter_ne.
Qed.

Lemma alter_add_hosts_cons socket h hs (m : gmap sock_id ZmqSocket) :
  alter (sk_add_hosts hs) socket (alter (sk_add_host h) socket m)
  = alter (sk_add_hosts (h :: hs)) socket m.
Proof.
  apply map_eq; intros i. destruct (decide (socket = i)) as [->|Hne].
  - rewrite !lookup_alter_eq. destruct (m !! i); simpl; [|done].
    by rewrite sk_add_hosts_cons.
  - by rewrite !lookup_alter_ne.
Qed.

(** The loop [for host in hosts: socket.connect_to_host(host)] links a
    prefix of [hosts] to [socket] and touches nothing else. *)
Lemma connect_to_host_unfold socket h w :
  connect_to_host socket h w
  = match connect_host_error (connects w) socket h with
    | Some e => (Raise e, count_connect w)
    | None =>
        (Return tt,
         count_connect (set_heap (alter (sk_add_host h) socket (heap w)) w))
    end.
Proof. reflexivity. Qed.

Lemma connect_loop_effect socket hosts w :
  exists linked n,
    (for_each hosts (connect_to_host socket) w).2
    = after_connects socket linked n w
    /\ ((for_each hosts (connect_to_host socket) w).1 = Return tt ->
        linked = hosts /\ n = length hosts).
Proof.
  revert w. induction hosts as [|h hs IH]; intros w; simpl.
  - exists [], 0%nat. split; [|done].
    unfold ret, after_connects; simpl. apply world_eq; simpl; try done.
    by rewrite alter_add_hosts_nil.
  - unfold bind. rewrite connect_to_host_unfold.
    destruct (connect_host_error (connects w) socket h) as [e|].
    + exists [], 1%nat. simpl. split; [|done].
      apply world_eq; simpl; try done. by rewrite alter_add_hosts_nil.
    + destruct (IH (count_connect (set_heap (alter (sk_add_host h) socket (heap w)) w)))
        as (linked & n & Hw & Hr).
      exists (h :: linked), (S n). rewrite Hw. split.
      * apply world_eq; simpl; try done; first [apply alter_add_hosts_cons | lia].
      * intros Hret. destruct (Hr Hret) as [-> ->]. done.
Qed.

Lemma connect_loop_ok socket hosts w :
  connects_ok socket hosts w ->
  for_each hosts (connect_to_host socket) w
  = (Return tt, after_connects socket hosts (length hosts) w).
Proof.
  revert w. induction hosts as [|h hs IH]; intros w Hok; simpl.
  - unfold ret, after_connects. f_equal. apply world_eq; simpl; try done.
    by rewrite alter_add_hosts_nil.
  - unfold bind. rewrite connect_to_host_unfold.
    assert (Hh : connect_host_error (connects w) socket h = None).
    { specialize (Hok 0%nat h eq_refl). by rewrite Nat.add_0_r in Hok. }
    rewrite Hh, IH.
    + f_equal. apply world_eq; simpl; try done; first [apply alter_add_hosts_cons | lia].
    + intros i h' Hi. simpl.
      specialize (Hok (S i) h' Hi). by rewrite Nat.add_succ_r in Hok.
Qed.

Lemma track_socket_unfold socket t w :
  _track_socket socket t w
  = (Return tt,
     set_outbound_sockets
       (<[str t := (socket, clock (ticks w))]> (outbound_sockets w)) (tick w)).
Proof. reflexivity. Qed.

Lemma get_hosts_and_connect_unfold socket t w :
  _get_hosts_and_connect self socket t w
  = match matchmaker_get_hosts (length (lookups w)) t (kind self) with
    | Raise e => (Raise e, log_lookup t (kind self) w)
    | Return hosts =>
        match for_each hosts (connect_to_host socket) (log_lookup t (kind self) w) with
        | (Return _, w1) => _track_socket socket t w1
        | (Raise e, w1) => (Raise e, w1)
        end
    end.
Proof.
  unfold _get_hosts_and_connect, bind, get_hosts.
  destruct (matchmaker_get_hosts _ _ _); reflexivity.
Qed.

(** What [_get_hosts_and_connect] does in every case: one lookup, links on
    [socket] only, and the entry written if and only if it returns. *)
Lemma get_hosts_and_connect_effect socket t w :
  let r := (_get_hosts_and_connect self socket t w).1 in
  let w' := (_get_hosts_and_connect self socket t w).2 in
  lookups w' = lookups w ++ [(t, kind self)]
  /\ next_sock w' = next_sock w
  /\ (exists linked, heap w' = alter (sk_add_hosts linked) socket (heap w))
  /\ match r with
     | Return _ =>
         outbound_sockets w'
         = <[str t := (socket, clock (ticks w))]> (outbound_sockets w)
         /\ ticks w' = S (ticks w)
     | Raise _ =>
         outbound_sockets w' = outbound_sockets w /\ ticks w' = ticks w
     end.
Proof.
  simpl. rewrite get_hosts_and_connect_unfold.
  destruct (matchmaker_get_hosts _ _ _) as [hosts|e]; simpl.
  - destruct (connect_loop_effect socket hosts (log_lookup t (kind self) w))
      as (linked & n & Hw & _).
    destruct (for_each hosts (connect_to_host socket) (log_lookup t (kind self) w))
      as [[[]|e] w1]; simpl in *; subst w1; simpl; eauto 10.
  - repeat split; try done. exists []. by rewrite alter_add_hosts_nil.
Qed.

Lemma get_socket_miss_unfold t w :
  outbound_sockets w !! str t = None ->
  get_socket self t w
  = match _get_hosts_and_connect self (next_sock w) t (new_ZmqSocket self w).2 with
    | (Return _, w') => (Return (next_sock w), w')
    | (Raise e, w') => (Raise e, w')
    end.
Proof.
  intros Hnone. unfold get_socket. rewrite Hnone.
  destruct (decide (is_Some None)) as [[? ?]|_]; [done|].
  unfold bind; simpl.
  destruct (_get_hosts_and_connect _ _ _ _) as [[[]|e] w']; reflexivity.
Qed.

Lemma get_socket_hit_unfold t w socket tm :
  outbound_sockets w !! str t = Some (socket, tm) ->
  get_socket self t w
  = if 0 <=? zmq_target_expire self
    then if zmq_target_expire self <=? clock (ticks w) - tm
         then match _get_hosts_and_connect self socket t (tick w) with
              | (Return _, w') => (Return socket, w')
              | (Raise e, w') => (Raise e, w')
              end
         else (Return socket, tick w)
    else (Return socket, w).
Proof.
  intros Hsome. unfold get_socket. rewrite Hsome.
  destruct (decide (is_Some (Some (socket, tm)))) as [_|Hn]; [|by destruct Hn; eauto].
  unfold _check_for_new_hosts. rewrite Hsome.
  destruct (0 <=? zmq_target_expire self); [|reflexivity].
  unfold bind, time_time; simpl.
  destruct (zmq_target_expire self <=? clock (ticks w) - tm); [|reflexivity].
  destruct (_get_hosts_and_connect _ _ _ _) as [[[]|e] w']; reflexivity.
Qed.

Lemma get_hosts_and_connect_raise socket t w e :
  matchmaker_get_hosts (length (lookups w)) t (kind self) = Raise e ->
  _get_hosts_and_connect self socket t w = (Raise e, log_lookup t (kind self) w).
Proof. intros H. by rewrite get_hosts_and_connect_unfold, H. Qed.

Lemma get_hosts_and_connect_ok socket t w hosts :
  matchmaker_get_hosts (length (lookups w)) t (kind self) = Return hosts ->
  connects_ok socket hosts w ->
  _get_hosts_and_connect self socket t w
  = (Return tt,
     set_outbound_sockets
       (<[str t := (socket, clock (ticks w))]> (outbound_sockets w))
       (tick (after_connects socket hosts (length hosts)
                (log_lookup t (kind self) w)))).
Proof.
  intros Hmm Hok. rewrite get_hosts_and_connect_unfold, Hmm.
  rewrite connect_loop_ok by exact Hok. reflexivity.
Qed.

(** The dictionary is the same after a call of [get_socket] that raises. *)
Lemma get_socket_raise_cache t w e w' :
  get_socket self t w = (Raise e, w') ->
  outbound_sockets w' = outbound_sockets w.
Proof.
  destruct (outbound_sockets w !! str t) as [[socket tm]|] eqn:Hent.
  - rewrite (get_socket_hit_unfold _ _ _ _ Hent).
    destruct (0 <=? _); [|by inversion 1].
    destruct (_ <=? _); [|by inversion 1].
    pose proof (get_hosts_and_connect_effect socket t (tick w)) as (_ & _ & _ & Hr).
    destruct (_get_hosts_and_connect _ _ _ _) as [[[]|e'] w1]; simpl in Hr;
      inversion 1; subst. by destruct Hr.
  - rewrite (get_socket_miss_unfold _ _ Hent).
    pose proof (get_hosts_and_connect_effect (next_sock w) t (new_ZmqSocket self w).2)
      as (_ & _ & _ & Hr).
    destruct (_get_hosts_and_connect _ _ _ _) as [[[]|e'] w1]; simpl in Hr;
      inversion 1; subst. by destruct Hr.
Qed.

(** C5: a target cached with elapsed time strictly below a non-negative
    expiry threshold is served from the cache: [get_socket] returns the
    cached socket, makes no discovery lookup and no connect call, and
    leaves the dictionary, timestamp included, and every socket as they
    were. *)
Theorem get_socket_fresh_hit t w socket tm :
  outbound_sockets w !! str t = Some (socket, tm) ->
  0 <= zmq_target_expire self ->
  clock (ticks w) - tm < zmq_target_expire self ->
  (get_socket self t w).1 = Return socket
  /\ lookups (get_socket self t w).2 = lookups w
  /\ connects (get_socket self t w).2 = connects w
  /\ outbound_sockets (get_socket self t w).2 !! str t = Some (socket, tm)
  /\ outbound_sockets (get_socket self t w).2 = outbound_sockets w
  /\ heap (get_socket self t w).2 = heap w.
Proof.
  intros Hent Hnn Hlt. rewrite (get_socket_hit_unfold _ _ _ _ Hent).
  destruct (Z.leb_spec 0 (zmq_target_expire self)); [|lia].
  destruct (Z.leb_spec (zmq_target_expire self) (clock (ticks w) - tm)); [lia|].
  simpl. by rewrite Hent.
Qed.

(** C6: when [get_socket] needs a discovery lookup (no entry, or an expired
    one) and [matchmaker.get_hosts] raises [e], [get_socket] raises the
    same [e]; the lookup was made once, no connect call was made and the
    dictionary is as before. *)
Theorem discovery_error_propagates t w e :
  needs_lookup self t w ->
  matchmaker_get_hosts (length (lookups w)) t (kind self) = Raise e ->
  (get_socket self t w).1 = Raise e
  /\ lookups (get_socket self t w).2 = lookups w ++ [(t, kind self)]
  /\ connects (get_socket self t w).2 = connects w
  /\ outbound_sockets (get_socket self t w).2 = outbound_sockets w.
Proof.
  unfold needs_lookup. intros Hneed Hmm.
  destruct (outbound_sockets w !! str t) as [[socket tm]|] eqn:Hent.
  - destruct Hneed as [H0 Hexp].
    rewrite (get_socket_hit_unfold _ _ _ _ Hent).
    destruct (Z.leb_spec 0 (zmq_target_expire self)); [|lia].
    destruct (Z.leb_spec (zmq_target_expire self) (clock (ticks w) - tm)); [|lia].
    rewrite (get_hosts_and_connect_raise socket t (tick w) e) by exact Hmm.
    done.
  - rewrite (get_socket_miss_unfold _ _ Hent).
    rewrite (get_hosts_and_connect_raise _ t _ e) by exact Hmm.
    done.
Qed.

(** C7: a call of [get_socket] that raises, whatever raised, leaves the
    dictionary exactly as it was: no entry was inserted and none was
    changed, so every entry present is a whole [(socket, timestamp)] pair
    written by a call that succeeded. *)
Theorem failed_get_socket_keeps_cache t w e w' :
  get_socket self t w = (Raise e, w') ->
  outbound_sockets w' = outbound_sockets w
  /\ (outbound_sockets w !! str t = None -> outbound_sockets w' !! str t = None)
  /\ (forall key, outbound_sockets w' !! key = outbound_sockets w !! key).
Proof.
  intros H. apply get_socket_raise_cache in H. rewrite H. done.
Qed.

Lemma connect_loop_return socket hosts w u :
  (for_each hosts (connect_to_host socket) w).1 = Return u ->
  connects_ok socket hosts w.
Proof.
  revert w. induction hosts as [|h hs IH]; intros w Hret i h' Hi.
  - done.
  - simpl in Hret. unfold bind in Hret. rewrite connect_to_host_unfold in Hret.
    destruct (connect_host_error (connects w) socket h) eqn:Hh; [done|].
    destruct i as [|i]; simpl in Hi.
    + inversion Hi; subst. by rewrite Nat.add_0_r.
    + specialize (IH _ Hret i h' Hi). simpl in IH.
      by rewrite Nat.add_succ_r.
Qed.

(** C3: for a cached target, [get_socket] queries discovery exactly when
    the expiry threshold is non-negative and the elapsed time, read at the
    clock, has reached it.  A refresh that succeeds returns the cached
    socket, links it to the hosts discovery returned on top of those it
    already had, and stamps the entry with the clock reading that follows.
    With a negative threshold nothing happens at all, whatever the time;
    with threshold zero and a clock that has not gone back behind the
    timestamp, every call queries discovery. *)
Theorem get_socket_cached_refresh t w socket tm :
  outbound_sockets w !! str t = Some (socket, tm) ->
  let elapsed := clock (ticks w) - tm in
  let r := (get_socket self t w).1 in
  let w' := (get_socket self t w).2 in
  (lookups w' = lookups w ++ [(t, kind self)]
   <-> 0 <= zmq_target_expire self /\ zmq_target_expire self <= elapsed)
  /\ (~ (0 <= zmq_target_expire self /\ zmq_target_expire self <= elapsed) ->
      r = Return socket /\ lookups w' = lookups w
      /\ outbound_sockets w' = outbound_sockets w /\ heap w' = heap w)
  /\ (forall hosts,
        0 <= zmq_target_expire self -> zmq_target_expire self <= elapsed ->
        matchmaker_get_hosts (length (lookups w)) t (kind self) = Return hosts ->
        connects_ok socket hosts w ->
        r = Return socket
        /\ heap w' = alter (sk_add_hosts hosts) socket (heap w)
        /\ outbound_sockets w'
           = <[str t := (socket, clock (S (ticks w)))]> (outbound_sockets w))
  /\ (zmq_target_expire self < 0 -> r = Return socket /\ w' = w)
  /\ (zmq_target_expire self = 0 -> tm <= clock (ticks w) ->
      lookups w' = lookups w ++ [(t, kind self)]).
Proof.
  intros Hent elapsed r w'. subst elapsed r w'.
  rewrite (get_socket_hit_unfold _ _ _ _ Hent).
  destruct (Z.leb_spec 0 (zmq_target_expire self)) as [H0|H0].
  - destruct (Z.leb_spec (zmq_target_expire self) (clock (ticks w) - tm)) as [H1|H1].
    + pose proof (get_hosts_and_connect_effect socket t (tick w)) as (Hl & _ & _ & _).
      assert (Hlook : lookups (match _get_hosts_and_connect self socket t (tick w) with
                               | (Return _, w1) => (Return socket, w1)
                               | (Raise e, w1) => (Raise e, w1)
                               end).2 = lookups w ++ [(t, kind self)]).
      { destruct (_get_hosts_and_connect _ _ _ _) as [[[]|e] w1]; exact Hl. }
      split; [split; [done | by intros]|].
      split; [intros Hn; exfalso; apply Hn; by split|].
      split; [|split; [lia | done]].
      intros hosts _ _ Hmm Hok.
      rewrite (get_hosts_and_connect_ok socket t (tick w) hosts Hmm Hok). done.
    + simpl. split; [|split; [done|split; [lia|split; lia]]].
      split; [|lia].
      intros Heq. apply (f_equal length) in Heq.
      rewrite length_app in Heq. simpl in Heq. lia.
  - simpl. split; [|split; [done|split; [lia|split; [done|lia]]]].
    split; [|lia].
    intros Heq. apply (f_equal length) in Heq.
    rewrite length_app in Heq. simpl in Heq. lia.
Qed.

(** C4: for a target without entry, when discovery returns [hosts] and the
    connect calls succeed, [get_socket] creates a socket that did not
    exist, bound to the manager's context, makes one discovery lookup for
    the target and the listener kind, links the socket to exactly [hosts],
    records the entry with the clock reading, and returns the socket.
    When discovery returns no host, no connect call is made and the socket
    is cached all the same, linked to nothing. *)
Theorem get_socket_miss t w :
  wf w ->
  outbound_sockets w !! str t = None ->
  let socket := next_sock w in
  let r := (get_socket self t w).1 in
  let w' := (get_socket self t w).2 in
  heap w !! socket = None
  /\ (forall hosts,
        matchmaker_get_hosts (length (lookups w)) t (kind self) = Return hosts ->
        connects_ok socket hosts w ->
        r = Return socket
        /\ heap w' = <[socket := sk_add_hosts hosts (fresh_socket self)]> (heap w)
        /\ (exists sk, heap w' !! socket = Some sk
                       /\ sk_context sk = zmq_context self
                       /\ sk_hosts sk = hosts /\ sk_closed sk = false)
        /\ outbound_sockets w'
           = <[str t := (socket, clock (ticks w))]> (outbound_sockets w)
        /\ lookups w' = lookups w ++ [(t, kind self)]
        /\ connects w' = (length hosts + connects w)%nat)
  /\ (matchmaker_get_hosts (length (lookups w)) t (kind self) = Return [] ->
      r = Return socket
      /\ heap w' !! socket = Some (fresh_socket self)
      /\ outbound_sockets w' !! str t = Some (socket, clock (ticks w))
      /\ connects w' = connects w).
Proof.
  intros Hwf Hent socket r w'. subst socket r w'.
  rewrite (get_socket_miss_unfold _ _ Hent).
  assert (Hfresh : heap w !! next_sock w = None).
  { destruct (heap w !! next_sock w) eqn:Hh; [|done].
    assert (next_sock w < next_sock w)%nat by (apply (wf_alloc _ Hwf); eauto).
    lia. }
  assert (Hgen : forall hosts,
    matchmaker_get_hosts (length (lookups w)) t (kind self) = Return hosts ->
    connects_ok (next_sock w) hosts w ->
    _get_hosts_and_connect self (next_sock w) t (new_ZmqSocket self w).2
    = (Return tt,
       set_outbound_sockets
         (<[str t := (next_sock w, clock (ticks w))]> (outbound_sockets w))
         (tick (after_connects (next_sock w) hosts (length hosts)
                  (log_lookup t (kind self) (new_ZmqSocket self w).2))))).
  { intros hosts Hmm Hok.
    exact (get_hosts_and_connect_ok _ t (new_ZmqSocket self w).2 hosts Hmm Hok). }
  split; [exact Hfresh|]. split.
  - intros hosts Hmm Hok. rewrite (Hgen hosts Hmm Hok). simpl.
    rewrite alter_insert_eq.
    split; [done|]. split; [done|]. split; [|done].
    eexists. rewrite lookup_insert_eq. done.
  - intros Hmm. rewrite (Hgen [] Hmm) by (intros i h Hi; done). simpl.
    rewrite alter_insert_eq, !lookup_insert_eq, sk_add_hosts_nil. done.
Qed.

Lemma get_hosts_and_connect_return socket t w u :
  (_get_hosts_and_connect self socket t w).1 = Return u ->
  exists hosts,
    matchmaker_get_hosts (length (lookups w)) t (kind self) = Return hosts
    /\ connects_ok socket hosts w.
Proof.
  rewrite get_hosts_and_connect_unfold.
  destruct (matchmaker_get_hosts _ _ _) as [hosts|e]; [|done].
  intros Hret. exists hosts. split; [done|].
  destruct (for_each hosts (connect_to_host socket) (log_lookup t (kind self) w))
    as [[u'|e] w1] eqn:Hloop; [|done].
  exact (connect_loop_return socket hosts (log_lookup t (kind self) w) u'
           (f_equal fst Hloop)).
Qed.

Lemma get_socket_expired_lookup t w socket tm :
  outbound_sockets w !! str t = Some (socket, tm) ->
  expired self w tm ->
  lookups (get_socket self t w).2 = lookups w ++ [(t, kind self)].
Proof.
  intros Hent [H0 H1]. rewrite (get_socket_hit_unfold _ _ _ _ Hent).
  destruct (Z.leb_spec 0 (zmq_target_expire self)); [|lia].
  destruct (Z.leb_spec (zmq_target_expire self) (clock (ticks w) - tm)); [|lia].
  pose proof (get_hosts_and_connect_effect socket t (tick w)) as (Hl & _).
  destruct (_get_hosts_and_connect _ _ _ _) as [[[]|e] w1]; exact Hl.
Qed.

(** C10: for a cached target, the entry is rewritten only by a call in
    which the discovery lookup and every connect call succeeded, and then
    it holds the same socket with the clock reading taken after them.  A
    call that raises was a refresh attempt and leaves the entry with its
    socket and its timestamp, so that the next call, at a clock reading
    that is not earlier, queries discovery again. *)
Theorem refresh_timestamp_after_success t w socket tm :
  outbound_sockets w !! str t = Some (socket, tm) ->
  let r := (get_socket self t w).1 in
  let w' := (get_socket self t w).2 in
  (outbound_sockets w' !! str t <> Some (socket, tm) ->
   exists hosts,
     matchmaker_get_hosts (length (lookups w)) t (kind self) = Return hosts
     /\ connects_ok socket hosts w
     /\ r = Return socket
     /\ outbound_sockets w' !! str t = Some (socket, clock (S (ticks w))))
  /\ (forall e, r = Raise e ->
       outbound_sockets w' !! str t = Some (socket, tm)
       /\ expired self w tm
       /\ (clock (ticks w) <= clock (ticks w') ->
           lookups (get_socket self t w').2 = lookups w' ++ [(t, kind self)])).
Proof.
  intros Hent r w'.
  assert (Hcases :
    (r = Return socket /\ outbound_sockets w' = outbound_sockets w
     /\ ~ expired self w tm)
    \/ (expired self w tm
        /\ outbound_sockets w'
           = <[str t := (socket, clock (S (ticks w)))]> (outbound_sockets w)
        /\ r = Return socket
        /\ exists hosts,
             matchmaker_get_hosts (length (lookups w)) t (kind self) = Return hosts
             /\ connects_ok socket hosts w)
    \/ (expired self w tm
        /\ outbound_sockets w' = outbound_sockets w /\ exists e, r = Raise e)).
  { subst r w'. unfold expired.
    rewrite (get_socket_hit_unfold _ _ _ _ Hent).
    destruct (Z.leb_spec 0 (zmq_target_expire self)) as [H0|H0];
      [|left; simpl; repeat split; try done; lia].
    destruct (Z.leb_spec (zmq_target_expire self) (clock (ticks w) - tm)) as [H1|H1];
      [|left; simpl; repeat split; try done; lia].
    right.
    pose proof (get_hosts_and_connect_effect socket t (tick w)) as (_ & _ & _ & Hr).
    pose proof (get_hosts_and_connect_return socket t (tick w)) as Hret.
    destruct (_get_hosts_and_connect self socket t (tick w)) as [[u|e] w1];
      simpl in Hr, Hret; destruct Hr as [Hd Ht]; simpl.
    - left. destruct (Hret u) as (hosts & Hmm & Hok); [reflexivity|].
      repeat split; try done. by exists hosts.
    - right. repeat split; try done. by exists e. }
  split.
  - intros Hchg.
    destruct Hcases as [(_ & Hd & _) | [(_ & Hd & Hr & hosts & Hmm & Hok) | (_ & Hd & _)]].
    + rewrite Hd in Hchg. done.
    + exists hosts. rewrite Hd, lookup_insert_eq. done.
    + rewrite Hd in Hchg. done.
  - intros e He.
    destruct Hcases as [(Hr & _) | [(_ & _ & Hr & _) | (Hexp & Hd & _)]];
      [congruence | congruence |].
    assert (Hent' : outbound_sockets w' !! str t = Some (socket, tm))
      by (rewrite Hd; exact Hent).
    split; [exact Hent'|]. split; [exact Hexp|].
    intros Hmono. destruct Hexp as [H0 H1].
    apply (get_socket_expired_lookup t w' socket tm Hent'). split; lia.
Qed.

Lemma get_socket_to_broker_unfold t w :
  get_socket_to_broker self t w
  = let s := next_sock w in
    let w1 := set_outbound_sockets
                (<[str t := (s, clock (ticks w))]> (outbound_sockets w))
                (tick (new_ZmqSocket self w).2) in
    match connect_address_error (connects w) s (broker_address self) with
    | Some e => (Raise e, count_connect w1)
    | None =>
        (Return s,
         count_connect
           (set_heap (alter (sk_add_address (broker_address self)) s (heap w1)) w1))
    end.
Proof.
  unfold get_socket_to_broker, bind, connect_to_address; simpl.
  destruct (connect_address_error _ _ _); reflexivity.
Qed.

Lemma alter_same (s : sock_id) (m : gmap sock_id ZmqSocket) :
  alter (fun sk => sk) s m = m.
Proof. by apply alter_id. Qed.

Lemma get_socket_shape t w : step_shape self t w (get_socket self t w).2.
Proof.
  unfold step_shape.
  destruct (outbound_sockets w !! str t) as [[socket tm]|] eqn:Hent.
  - rewrite (get_socket_hit_unfold _ _ _ _ Hent).
    destruct (0 <=? zmq_target_expire self).
    2:{ exists socket, (fun sk => sk). simpl. rewrite !alter_same. eauto 10. }
    destruct (zmq_target_expire self <=? clock (ticks w) - tm).
    2:{ exists socket, (fun sk => sk). simpl. rewrite !alter_same.
        split; [left; eauto|]. split; [lia|by left]. }
    pose proof (get_hosts_and_connect_effect socket t (tick w))
      as (_ & Hn & (linked & Hh) & Hr).
    exists socket, (sk_add_hosts linked).
    destruct (_get_hosts_and_connect self socket t (tick w)) as [[[]|e] w1];
      simpl in *; destruct Hr as [Hd Ht].
    + split; [left; eauto|]. split; [lia|]. right. exists (S (ticks w)).
      split; [lia|done].
    + split; [left; eauto|]. split; [lia|]. by left.
  - rewrite (get_socket_miss_unfold _ _ Hent).
    pose proof (get_hosts_and_connect_effect (next_sock w) t (new_ZmqSocket self w).2)
      as (_ & Hn & (linked & Hh) & Hr).
    exists (next_sock w), (sk_add_hosts linked).
    destruct (_get_hosts_and_connect self (next_sock w) t (new_ZmqSocket self w).2)
      as [[[]|e] w1]; simpl in *; destruct Hr as [Hd Ht].
    + split; [right; eauto|]. split; [lia|]. right. exists (ticks w).
      split; [lia|done].
    + split; [right; eauto|]. split; [lia|]. by left.
Qed.

Lemma get_socket_to_broker_shape t w :
  step_shape self t w (get_socket_to_broker self t w).2.
Proof.
  unfold step_shape. rewrite get_socket_to_broker_unfold. simpl.
  destruct (connect_address_error _ _ _); simpl.
  - exists (next_sock w), (fun sk => sk). rewrite !alter_same.
    split; [right; eauto|]. split; [lia|]. right. exists (ticks w).
    split; [lia|done].
  - exists (next_sock w), (sk_add_address (broker_address self)).
    split; [right; eauto|]. split; [lia|]. right. exists (ticks w).
    split; [lia|done].
Qed.

Lemma wf_init : wf (@init_world Target).
Proof.
  split; unfold init_world; simpl; intros *.
  - rewrite lookup_empty. by intros [? ?].
  - by rewrite lookup_empty.
  - by rewrite lookup_empty.
  - by rewrite lookup_empty.
Qed.

Lemma step_shape_heap_mono t w w' i :
  step_shape self t w w' -> is_Some (heap w !! i) -> is_Some (heap w' !! i).
Proof.
  intros (s & f & Hheap & _) Hi.
  destruct Hheap as [(_ & Hh & _) | (_ & Hh & _)]; rewrite Hh.
  - by apply lookup_alter_is_Some.
  - apply lookup_alter_is_Some, lookup_insert_is_Some'. by right.
Qed.

Lemma step_shape_wf t w w' : wf w -> step_shape self t w w' -> wf w'.
Proof.
  intros Hwf Hshape.
  pose proof (step_shape_heap_mono t w w') as Hmono.
  specialize (fun i => Hmono i Hshape).
  destruct Hshape as (s & f & Hheap & Hticks & Hdict).
  assert (Hnext : (next_sock w <= next_sock w')%nat)
    by (destruct Hheap as [(_ & _ & Hn) | (_ & _ & Hn)]; rewrite Hn; lia).
  assert (Hs : is_Some (heap w' !! s)).
  { destruct Hheap as [((tm & Hent) & Hh & _) | (Hs & Hh & _)]; rewrite Hh.
    - apply lookup_alter_is_Some. eapply wf_tracked; eauto.
    - apply lookup_alter_is_Some. rewrite lookup_insert_eq. eauto. }
  assert (Hother : forall key tm, key <> str t ->
            outbound_sockets w !! key = Some (s, tm) -> False).
  { intros key tm Hne Hk.
    destruct Hheap as [((tm0 & Hent) & _) | (Hs' & _)].
    - apply Hne. eapply wf_inj; eauto.
    - subst s. assert (next_sock w < next_sock w)%nat; [|lia].
      eapply wf_alloc; eauto. eapply wf_tracked; eauto. }
  split.
  - intros i Hi.
    destruct Hheap as [(_ & Hh & Hn) | (Hs' & Hh & Hn)];
      rewrite Hh in Hi; rewrite Hn; apply lookup_alter_is_Some in Hi.
    + by apply (wf_alloc _ Hwf).
    + apply lookup_insert_is_Some' in Hi as [Hi|Hi]; [lia|].
      apply (wf_alloc _ Hwf) in Hi. lia.
  - intros key i tm Hk.
    destruct Hdict as [Hd|(n & Hn & Hd)]; rewrite Hd in Hk.
    + apply Hmono. eapply wf_tracked; eauto.
    + destruct (decide (str t = key)) as [<-|Hne].
      * rewrite lookup_insert_eq in Hk. by inversion Hk; subst.
      * rewrite lookup_insert_ne in Hk by done.
        apply Hmono. eapply wf_tracked; eauto.
  - intros k1 k2 i tm1 tm2 H1 H2.
    destruct Hdict as [Hd|(n & Hn & Hd)]; rewrite Hd in H1, H2;
      [eapply wf_inj; eauto|].
    destruct (decide (str t = k1)) as [<-|Hne1];
      destruct (decide (str t = k2)) as [<-|Hne2]; try done.
    + rewrite lookup_insert_eq in H1. rewrite lookup_insert_ne in H2 by done.
      inversion H1; subst. exfalso. eapply (Hother k2); eauto.
    + rewrite lookup_insert_eq in H2. rewrite lookup_insert_ne in H1 by done.
      inversion H2; subst. exfalso. eapply (Hother k1); eauto.
    + rewrite lookup_insert_ne in H1, H2 by done. eapply wf_inj; eauto.
  - intros key i tm Hk.
    destruct Hdict as [Hd|(n & Hn & Hd)]; rewrite Hd in Hk.
    + destruct (wf_stamp _ Hwf _ _ _ Hk) as (m & Hm & ->). exists m. split; [lia|done].
    + destruct (decide (str t = key)) as [<-|Hne].
      * rewrite lookup_insert_eq in Hk. inversion Hk; subst. exists n. split; [lia|done].
      * rewrite lookup_insert_ne in Hk by done.
        destruct (wf_stamp _ Hwf _ _ _ Hk) as (m & Hm & ->). exists m. split; [lia|done].
Qed.

(** A socket that exists and is not tracked is out of reach of a call:
    the call neither changes it nor tracks it. *)
Lemma step_shape_untracked t w w' old :
  step_shape self t w w' ->
  (old < next_sock w)%nat -> ~ tracked w old ->
  heap w' !! old = heap w !! old
  /\ ~ tracked w' old /\ (old < next_sock w')%nat.
Proof.
  intros (s & f & Hheap & _ & Hdict) Hlt Hun.
  assert (Hne : s <> old).
  { destruct Hheap as [((tm & Hent) & _) | (Hs & _)]; [|lia].
    intros ->. apply Hun. by exists (str t), tm. }
  split; [|split].
  - destruct Hheap as [(_ & Hh & _) | (_ & Hh & _)]; rewrite Hh.
    + by rewrite lookup_alter_ne.
    + rewrite lookup_alter_ne by done. by rewrite lookup_insert_ne.
  - intros (key & tm & Hk). destruct Hdict as [Hd|(n & _ & Hd)]; rewrite Hd in Hk.
    + apply Hun. by exists key, tm.
    + destruct (decide (str t = key)) as [<-|Hk'].
      * rewrite lookup_insert_eq in Hk. by inversion Hk.
      * rewrite lookup_insert_ne in Hk by done. apply Hun. by exists key, tm.
  - destruct Hheap as [(_ & _ & Hn) | (_ & _ & Hn)]; rewrite Hn; lia.
Qed.

Lemma sk_close_idem sk : sk_close (sk_close sk) = sk_close sk.
Proof. reflexivity. Qed.

Lemma set_heap_same w : set_heap (heap w) w = w.
Proof. by destruct w. Qed.

(** The loop of [cleanup] closes the sockets of the entries it walks
    through, leaves the others alone, and returns. *)
Lemma close_loop_effect (l : list (string * (sock_id * Z))) w :
  exists h',
    for_each l (fun '(_, (socket, tm)) => close socket) w
    = (Return tt, set_heap h' w)
    /\ forall i, h' !! i = if decide (i ∈ (l.*2).*1)
                          then sk_close <$> heap w !! i
                          else heap w !! i.
Proof.
  revert w. induction l as [|[key [s tm]] l IH]; intros w.
  - exists (heap w). simpl. unfold ret. rewrite set_heap_same. split; [done|].
    intros i. destruct (decide (i ∈ [])) as [Hin|_]; [|done].
    by apply elem_of_nil in Hin.
  - destruct (IH (set_heap (alter sk_close s (heap w)) w)) as (h' & Hrun & Hh').
    exists h'. split.
    + simpl. unfold bind, close at 1. simpl. rewrite Hrun. reflexivity.
    + intros i. rewrite Hh'. simpl.
      destruct (decide (i ∈ (l.*2).*1)) as [Hin|Hnin].
      * rewrite decide_True by (apply elem_of_cons; by right).
        destruct (decide (s = i)) as [->|Hne].
        -- rewrite lookup_alter_eq. destruct (heap w !! i); reflexivity.
        -- by rewrite lookup_alter_ne.
      * destruct (decide (s = i)) as [->|Hne].
        -- rewrite decide_True by (apply elem_of_cons; by left).
           by rewrite lookup_alter_eq.
        -- rewrite decide_False.
           ++ by rewrite lookup_alter_ne.
           ++ intros [Heq|Hin]%elem_of_cons; [by subst|done].
Qed.

Lemma tracked_elem_of w i :
  tracked w i <-> i ∈ ((map_to_list (outbound_sockets w)).*2).*1.
Proof.
  unfold tracked. split.
  - intros (key & tm & Hk). apply list_elem_of_fmap. exists (i, tm). split; [done|].
    apply list_elem_of_fmap. exists (key, (i, tm)). split; [done|].
    by apply elem_of_map_to_list.
  - intros ([i' tm] & Hi & ([key [i'' tm']] & Heq & Hin)%list_elem_of_fmap)%list_elem_of_fmap.
    simpl in *. inversion Heq; subst. exists key, tm'. by apply elem_of_map_to_list.
Qed.

(** [cleanup] returns; it closes every tracked socket and changes nothing
    else, neither another socket nor the dictionary. *)
Lemma cleanup_effect w :
  exists h',
    cleanup w = (Return tt, set_heap h' w)
    /\ (forall i, tracked w i -> h' !! i = sk_close <$> heap w !! i)
    /\ (forall i, ~ tracked w i -> h' !! i = heap w !! i).
Proof.
  destruct (close_loop_effect (map_to_list (outbound_sockets w)) w)
    as (h' & Hrun & Hh').
  exists h'. split; [exact Hrun|]. split; intros i Hi; rewrite Hh'.
  - rewrite decide_True; [done|]. by apply tracked_elem_of.
  - rewrite decide_False; [done|]. by rewrite <- tracked_elem_of.
Qed.

Lemma cleanup_wf w : wf w -> wf (cleanup w).2.
Proof.
  intros Hwf. destruct (cleanup_effect w) as (h' & -> & Ht & Hu). simpl.
  assert (Hdom : forall i, is_Some (h' !! i) <-> is_Some (heap w !! i)).
  { intros i.
    destruct (decide (i ∈ ((map_to_list (outbound_sockets w)).*2).*1)) as [Hi|Hi];
      rewrite <- tracked_elem_of in Hi.
    - rewrite (Ht i Hi). by rewrite fmap_is_Some.
    - by rewrite (Hu i Hi). }
  split; simpl.
  - intros i Hi. apply Hdom in Hi. by apply (wf_alloc _ Hwf).
  - intros key i tm Hk. apply Hdom. eapply wf_tracked; eauto.
  - apply (wf_inj _ Hwf).
  - apply (wf_stamp _ Hwf).
Qed.

Lemma do_call_wf w c : wf w -> wf (do_call self w c).
Proof.
  intros Hwf. destruct c as [t|t|]; simpl.
  - eapply step_shape_wf; [exact Hwf | apply get_socket_shape].
  - eapply step_shape_wf; [exact Hwf | apply get_socket_to_broker_shape].
  - by apply cleanup_wf.
Qed.

Lemma run_wf cs w : wf w -> wf (run self cs w).
Proof.
  revert w. induction cs as [|c cs IH]; intros w Hwf; [done|].
  simpl. apply IH. by apply do_call_wf.
Qed.

Lemma do_call_untracked w c old :
  (old < next_sock w)%nat -> ~ tracked w old ->
  heap (do_call self w c) !! old = heap w !! old
  /\ ~ tracked (do_call self w c) old
  /\ (old < next_sock (do_call self w c))%nat.
Proof.
  intros Hlt Hun. destruct c as [t|t|]; simpl.
  - eapply step_shape_untracked; eauto using get_socket_shape.
  - eapply step_shape_untracked; eauto using get_socket_to_broker_shape.
  - destruct (cleanup_effect w) as (h' & -> & _ & Hu). simpl.
    split; [by apply Hu|]. split; [exact Hun | exact Hlt].
Qed.

Lemma run_untracked cs w old :
  (old < next_sock w)%nat -> ~ tracked w old ->
  heap (run self cs w) !! old = heap w !! old
  /\ ~ tracked (run self cs w) old
  /\ (old < next_sock (run self cs w))%nat.
Proof.
  revert w. induction cs as [|c cs IH]; intros w Hlt Hun; [done|].
  destruct (do_call_untracked w c old Hlt Hun) as (Hh & Hun' & Hlt').
  simpl. destruct (IH _ Hlt' Hun') as (Hh2 & ? & ?).
  split; [by rewrite Hh2|done].
Qed.

(** C9: [get_socket_to_broker] puts its new socket under the target's
    key, whatever was there and whether or not the connect call that
    follows raises, and leaves every other key alone.  A socket that was
    tracked under that key is then tracked nowhere, and no later call,
    [cleanup] included, touches it again: it is never closed. *)
Theorem get_socket_to_broker_overwrites t w :
  let w' := (get_socket_to_broker self t w).2 in
  outbound_sockets w' !! str t = Some (next_sock w, clock (ticks w))
  /\ (forall key, key <> str t ->
        outbound_sockets w' !! key = outbound_sockets w !! key)
  /\ (forall old tm,
        wf w -> outbound_sockets w !! str t = Some (old, tm) ->
        old <> next_sock w
        /\ ~ tracked w' old
        /\ forall cs, heap (cleanup (run self cs w')).2 !! old = heap w !! old).
Proof.
  intros w'.
  assert (Hd : outbound_sockets w'
               = <[str t := (next_sock w, clock (ticks w))]> (outbound_sockets w)).
  { subst w'. rewrite get_socket_to_broker_unfold. simpl.
    by destruct (connect_address_error _ _ _). }
  split; [by rewrite Hd, lookup_insert_eq|].
  split; [intros key Hne; by rewrite Hd, lookup_insert_ne|].
  intros old tm Hwf Hent.
  assert (Hlt : (old < next_sock w)%nat).
  { eapply wf_alloc; eauto. eapply wf_tracked; eauto. }
  assert (Hun : ~ tracked w' old).
  { intros (key & tm' & Hk). rewrite Hd in Hk.
    destruct (decide (str t = key)) as [<-|Hne].
    - rewrite lookup_insert_eq in Hk. inversion Hk. lia.
    - rewrite lookup_insert_ne in Hk by done.
      apply Hne. eapply wf_inj; eauto. }
  assert (Hh : heap w' !! old = heap w !! old).
  { subst w'. rewrite get_socket_to_broker_unfold. simpl.
    destruct (connect_address_error _ _ _); simpl.
    - rewrite lookup_insert_ne by lia. done.
    - rewrite lookup_alter_ne by lia. rewrite lookup_insert_ne by lia. done. }
  assert (Hlt' : (old < next_sock w')%nat).
  { subst w'. rewrite get_socket_to_broker_unfold. simpl.
    destruct (connect_address_error _ _ _); simpl; lia. }
  split; [lia|]. split; [exact Hun|].
  intros cs.
  destruct (run_untracked cs w' old Hlt' Hun) as (Hrun & Hun2 & _).
  destruct (cleanup_effect (run self cs w')) as (h' & -> & _ & Hu).
  change (h' !! old = heap w !! old).
  rewrite (Hu old Hun2). etrans; [exact Hrun | exact Hh].
Qed.

(** C1, as the code has it: [get_socket_to_broker] does not read the cache,
    it creates a socket and tracks it under the target's key; a call of
    [get_socket] for the same target that follows finds that entry and,
    when it returns, returns the broker socket itself.  The two calls
    create one socket, and it is the one tracked under the key. *)
Theorem broker_then_get_socket t w :
  let r1 := (get_socket_to_broker self t w).1 in
  let w1 := (get_socket_to_broker self t w).2 in
  let r2 := (get_socket self t w1).1 in
  let w2 := (get_socket self t w1).2 in
  outbound_sockets w1 !! str t = Some (next_sock w, clock (ticks w))
  /\ (forall a, r1 = Return a -> a = next_sock w)
  /\ (forall b, r2 = Return b -> b = next_sock w)
  /\ next_sock w2 = S (next_sock w)
  /\ (exists tm, outbound_sockets w2 !! str t = Some (next_sock w, tm)).
Proof.
  intros r1 w1 r2 w2.
  assert (Hent : outbound_sockets w1 !! str t = Some (next_sock w, clock (ticks w))).
  { subst w1. rewrite get_socket_to_broker_unfold. simpl.
    destruct (connect_address_error _ _ _); simpl; by rewrite lookup_insert_eq. }
  assert (Hn1 : next_sock w1 = S (next_sock w)).
  { subst w1. rewrite get_socket_to_broker_unfold. simpl.
    by destruct (connect_address_error _ _ _). }
  split; [exact Hent|]. split.
  { intros a. subst r1. rewrite get_socket_to_broker_unfold. simpl.
    destruct (connect_address_error _ _ _); simpl; by inversion 1. }
  pose proof (get_hosts_and_connect_effect (next_sock w) t (tick w1))
    as (_ & Hn & _ & Hr).
  subst r2 w2. rewrite (get_socket_hit_unfold _ _ _ _ Hent).
  destruct (0 <=? zmq_target_expire self); simpl.
  2:{ rewrite Hent. split; [by inversion 1|]. split; [done|]. eauto. }
  destruct (_ <=? _); simpl.
  2:{ rewrite Hent. split; [by inversion 1|]. split; [done|]. eauto. }
  destruct (_get_hosts_and_connect self (next_sock w) t (tick w1)) as [[[]|e] w2];
    simpl in *; destruct Hr as [Hd Ht].
  - split; [by inversion 1|]. split; [by rewrite Hn|].
    rewrite Hd, lookup_insert_eq. eauto.
  - split; [by inversion 1|]. split; [by rewrite Hn|].
    rewrite Hd, Hent. eauto.
Qed.

(** C2: the code does not do what the claim says.  On a new manager, two
    calls of [get_socket_to_broker] for one target and then [cleanup]: the
    second call replaces the first socket in the dictionary, [cleanup]
    walks the dictionary and closes the second socket, and the first one,
    created by the manager, is left open and tracked nowhere.  This is so
    whatever the collaborators answer. *)
Theorem cleanup_misses_replaced_socket t :
  let w := run self [Call_get_socket_to_broker t; Call_get_socket_to_broker t;
                     Call_cleanup] init_world in
  (exists sk, heap w !! 0%nat = Some sk /\ sk_closed sk = false)
  /\ ~ tracked w 0%nat
  /\ is_closed w 1%nat
  /\ next_sock w = 2%nat.
Proof.
  intros w.
  set (w1 := (get_socket_to_broker self t init_world).2).
  set (w2 := (get_socket_to_broker self t w1).2).
  assert (H1 : (exists sk, heap w1 !! 0%nat = Some sk /\ sk_closed sk = false)
               /\ next_sock w1 = 1%nat
               /\ outbound_sockets w1 = <[str t := (0%nat, clock 0)]> ∅).
  { subst w1. rewrite get_socket_to_broker_unfold. simpl.
    destruct (connect_address_error _ _ _); simpl.
    - rewrite lookup_insert_eq. eauto.
    - rewrite lookup_alter_eq, lookup_insert_eq. simpl. eauto. }
  destruct H1 as ((sk0 & Hsk0 & Hopen0) & Hn1 & Hd1).
  assert (H2 : heap w2 !! 0%nat = Some sk0
               /\ is_Some (heap w2 !! 1%nat)
               /\ next_sock w2 = 2%nat
               /\ exists tm, outbound_sockets w2
                             = <[str t := (1%nat, tm)]> (outbound_sockets w1)).
  { subst w2. rewrite get_socket_to_broker_unfold. simpl. rewrite Hn1.
    destruct (connect_address_error _ _ _); simpl.
    - rewrite lookup_insert_ne by lia. rewrite lookup_insert_eq. eauto.
    - rewrite !lookup_alter_ne by lia. rewrite lookup_insert_ne by lia.
      rewrite lookup_alter_eq, lookup_insert_eq. simpl. eauto. }
  destruct H2 as (Hh0 & [sk1 Hsk1] & Hn2 & tm & Hd2).
  assert (Hun : ~ tracked w2 0%nat).
  { intros (key & tm' & Hk). rewrite Hd2, Hd1 in Hk.
    destruct (decide (str t = key)) as [<-|Hne].
    - rewrite lookup_insert_eq in Hk. by inversion Hk.
    - rewrite !lookup_insert_ne in Hk by done. by rewrite lookup_empty in Hk. }
  assert (Htr : tracked w2 1%nat).
  { exists (str t), tm. by rewrite Hd2, lookup_insert_eq. }
  assert (Hw : w = (cleanup w2).2) by reflexivity.
  destruct (cleanup_effect w2) as (h' & Hc & Ht & Hu).
  rewrite Hc in Hw. simpl in Hw. rewrite Hw. clear Hw. simpl.
  split.
  { exists sk0. split; [|exact Hopen0].
    etrans; [exact (Hu 0%nat Hun) | exact Hh0]. }
  split; [exact Hun|]. split; [|exact Hn2].
  exists (sk_close sk1). split; [|reflexivity].
  etrans; [exact (Ht 1%nat Htr)|].
  exact (f_equal (fun o : option ZmqSocket => sk_close <$> o) Hsk1).
Qed.

(** C8: the message of [UnsupportedSendPattern(p)] is the format with [p]
    in the place of [%s], so [p] occurs in it. *)
Theorem unsupported_pattern_message (p : string) :
  exn_message (UnsupportedSendPattern p)
  = ("Sending pattern " ++ p ++ " is unsupported.")%string
  /\ occurs_in p (exn_message (UnsupportedSendPattern p)).
Proof.
  assert (Hmsg : exn_message (UnsupportedSendPattern p)
                 = ("Sending pattern " ++ p ++ " is unsupported.")%string)
    by reflexivity.
  split; [exact Hmsg|].
  exists "Sending pattern ", " is unsupported.". exact Hmsg.
Qed.

End Facts.

(** * The theorems at work on the concrete setting *)

Lemma get_socket_fresh_hit_witness :
  let w := run (E := example_env) (example_manager 10)
               [Call_get_socket "topic-A"] init_world in
  (get_socket (E := example_env) (example_manager 10) "topic-A" w).1 = Return 0%nat
  /\ lookups (get_socket (E := example_env) (example_manager 10) "topic-A" w).2
     = lookups w.
Proof.
  intros w.
  destruct (get_socket_fresh_hit (E := example_env) (example_manager 10)
              "topic-A" w 0%nat 0) as (Hr & Hl & _).
  - vm_compute. reflexivity.
  - vm_compute. discriminate.
  - vm_compute. reflexivity.
  - split; [exact Hr | exact Hl].
Defined.

Lemma get_socket_cached_refresh_witness :
  let w := run (E := example_env) (example_manager 10)
               [Call_get_socket "topic-A"; Call_get_socket "topic-A"] init_world in
  let w' := (get_socket (E := example_env) (example_manager 10) "topic-A" w).2 in
  lookups w' = lookups w ++ [("topic-A", "ROUTER")]
  /\ outbound_sockets w' !! "topic-A" = Some (0%nat, 12)
  /\ (sk_hosts <$> heap w' !! 0%nat)
     = Some ["host-1"; "host-2"; "host-1"; "host-2"].
Proof.
  intros w w'.
  destruct (get_socket_cached_refresh (E := example_env) (example_manager 10)
              "topic-A" w 0%nat 0) as (Hiff & _ & Hok & _).
  - vm_compute. reflexivity.
  - split.
    + apply Hiff. split; vm_compute; discriminate.
    + destruct (Hok ["host-1"; "host-2"]) as (_ & Hh & Hd).
      * vm_compute. discriminate.
      * vm_compute. discriminate.
      * reflexivity.
      * intros i h _. reflexivity.
      * subst w'. rewrite Hd, Hh. split; vm_compute; reflexivity.
Defined.

Lemma get_socket_miss_witness :
  (get_socket (E := example_env) (example_manager 10) "topic-A" init_world).1
  = Return 0%nat
  /\ lookups (get_socket (E := example_env) (example_manager 10)
                "topic-A" init_world).2
     = [("topic-A", "ROUTER")]
  /\ outbound_sockets (get_socket (E := example_env) (example_manager 10)
                         "topic-A" init_world).2 !! "topic-A"
     = Some (0%nat, 0).
Proof.
  destruct (get_socket_miss (E := example_env) (example_manager 10)
              "topic-A" init_world) as (_ & Hok & _).
  - apply wf_init.
  - vm_compute. reflexivity.
  - destruct (Hok ["host-1"; "host-2"]) as (Hr & _ & _ & Hd & Hl & _).
    + reflexivity.
    + intros i h _. reflexivity.
    + split; [exact Hr|]. split; [exact Hl|].
      rewrite Hd. vm_compute. reflexivity.
Defined.

Lemma discovery_error_propagates_witness :
  (get_socket (E := no_discovery_env) (example_manager 10)
     "topic-A" init_world).1 = Raise DiscoveryError
  /\ outbound_sockets (get_socket (E := no_discovery_env) (example_manager 10)
                         "topic-A" init_world).2 = ∅.
Proof.
  destruct (discovery_error_propagates (E := no_discovery_env)
              (example_manager 10) "topic-A" init_world DiscoveryError)
    as (Hr & _ & _ & Hd).
  - vm_compute. exact I.
  - reflexivity.
  - split; [exact Hr | exact Hd].
Defined.

Lemma failed_get_socket_keeps_cache_witness :
  outbound_sockets (get_socket (E := refusing_env) (example_manager 10)
                      "topic-A" init_world).2 = ∅.
Proof.
  destruct (failed_get_socket_keeps_cache (E := refusing_env)
              (example_manager 10) "topic-A" init_world ConnectError
              (get_socket (E := refusing_env) (example_manager 10)
                 "topic-A" init_world).2) as (Hd & _).
  - vm_compute. reflexivity.
  - exact Hd.
Defined.

Lemma refresh_timestamp_after_success_witness :
  let w := run (E := flaky_discovery_env) (example_manager 0)
               [Call_get_socket "topic-A"] init_world in
  let w' := (get_socket (E := flaky_discovery_env) (example_manager 0)
               "topic-A" w).2 in
  outbound_sockets w' !! "topic-A" = Some (0%nat, 0)
  /\ lookups (get_socket (E := flaky_discovery_env) (example_manager 0)
                "topic-A" w').2
     = lookups w' ++ [("topic-A", "ROUTER")].
Proof.
  intros w w'.
  destruct (refresh_timestamp_after_success (E := flaky_discovery_env)
              (example_manager 0) "topic-A" w 0%nat 0) as (_ & Hraise).
  - vm_compute. reflexivity.
  - destruct (Hraise DiscoveryError) as (Hent & _ & Hnext).
    + vm_compute. reflexivity.
    + split; [exact Hent|]. apply Hnext. vm_compute. discriminate.
Defined.

Lemma get_socket_to_broker_overwrites_witness :
  let w := run (E := example_env) (example_manager 10)
               [Call_get_socket "topic-A"] init_world in
  let w' := (get_socket_to_broker (E := example_env) (example_manager 10)
               "topic-A" w).2 in
  outbound_sockets w' !! "topic-A" = Some (1%nat, 5)
  /\ ~ tracked w' 0%nat
  /\ (sk_closed <$> heap (cleanup w').2 !! 0%nat) = Some false.
Proof.
  intros w w'.
  destruct (get_socket_to_broker_overwrites (E := example_env)
              (example_manager 10) "topic-A" w) as (Hent & _ & Hold).
  destruct (Hold 0%nat 0) as (_ & Hun & Hcl).
  - apply run_wf, wf_init.
  - vm_compute. reflexivity.
  - split; [exact Hent|]. split; [exact Hun|].
    transitivity (sk_closed <$> heap w !! 0%nat).
    + exact (f_equal (fun o : option ZmqSocket => sk_closed <$> o) (Hcl [])).
    + vm_compute. reflexivity.
Defined.

Lemma broker_then_get_socket_witness :
  let w1 := (get_socket_to_broker (E := example_env) (example_manager 10)
               "topic-A" init_world).2 in
  (get_socket (E := example_env) (example_manager 10) "topic-A" w1).1
  = Return 0%nat
  /\ next_sock (get_socket (E := example_env) (example_manager 10)
                  "topic-A" w1).2 = 1%nat.
Proof.
  intros w1.
  destruct (broker_then_get_socket (E := example_env) (example_manager 10)
              "topic-A" init_world) as (_ & _ & Hb & Hn & _).
  split; [|exact Hn].
  destruct (get_socket (E := example_env) (example_manager 10) "topic-A" w1).1
    as [b|e] eqn:Hr.
  - f_equal. apply Hb. subst w1. exact Hr.
  - vm_compute in Hr. discriminate Hr.
Defined.

(** C1, as stated, fails: after [get_socket_to_broker], [get_socket] for
    the same target returns the broker socket, not a second one. *)
Lemma broker_then_get_socket_same_socket :
  ~ (forall (E : Env string) (self : SocketsManager) (t : string)
            (w w1 w2 : World string) (a b : sock_id),
        get_socket_to_broker self t w = (Return a, w1) ->
        get_socket self t w1 = (Return b, w2) ->
        a <> b /\ tracked w2 a /\ tracked w2 b).
Proof.
  intros H.
  destruct (H example_env (example_manager 10) "topic-A" init_world
              (get_socket_to_broker (E := example_env) (example_manager 10)
                 "topic-A" init_world).2
              (get_socket (E := example_env) (example_manager 10) "topic-A"
                 (get_socket_to_broker (E := example_env) (example_manager 10)
                    "topic-A" init_world).2).2
              0%nat 0%nat) as (Hne & _).
  - vm_compute. reflexivity.
  - vm_compute. reflexivity.
  - by apply Hne.
Qed.

(** * Further properties of the manager *)

Section Further.

Context {Target : Type} `{E : Env Target}.
Variable self : SocketsManager.
Implicit Types (w : World Target) (t : Target) (socket : sock_id).

(** The loop stops at the first connect call that raises: the hosts before
    it are linked, the others are not tried. *)
Lemma connect_loop_first_raise socket hosts w i h e :
  hosts !! i = Some h ->
  connect_host_error (connects w + i)%nat socket h = Some e ->
  connects_ok socket (take i hosts) w ->
  for_each hosts (connect_to_host socket) w
  = (Raise e, after_connects socket (take i hosts) (S i) w).
Proof.
  revert w i. induction hosts as [|h0 hs IH]; intros w i Hi He Hok; [done|].
  simpl. unfold bind. rewrite connect_to_host_unfold.
  destruct i as [|i]; simpl in *.
  - inversion Hi; subst. rewrite Nat.add_0_r in He. rewrite He.
    f_equal. apply world_eq; simpl; try done. by rewrite alter_add_hosts_nil.
  - assert (Hh0 : connect_host_error (connects w) socket h0 = None).
    { specialize (Hok 0%nat h0 eq_refl). by rewrite Nat.add_0_r in Hok. }
    rewrite Hh0.
    rewrite (IH _ i Hi).
    + f_equal. apply world_eq; simpl; try done;
        first [apply alter_add_hosts_cons | lia].
    + simpl. by rewrite <- Nat.add_succ_r.
    + intros j h' Hj. simpl.
      specialize (Hok (S j) h' Hj). by rewrite Nat.add_succ_r in Hok.
Qed.

(** X1: every state the manager reaches from [__init__] by calls of
    [get_socket], [get_socket_to_broker] and [cleanup], returning or
    raising, is well formed: each tracked socket exists, no socket is
    tracked under two keys, and each timestamp is a past clock reading. *)
Theorem run_keeps_wf cs : wf (run self cs init_world).
Proof. apply run_wf, wf_init. Qed.

(** X3: when a connect call of a refresh raises, the cached socket keeps
    the links made before it, the hosts after it are not tried, and the
    entry keeps its timestamp: the cache then holds a partly refreshed
    socket. *)
Theorem failed_refresh_keeps_partial_links t w socket tm hosts i h e :
  outbound_sockets w !! str t = Some (socket, tm) ->
  expired self w tm ->
  matchmaker_get_hosts (length (lookups w)) t (kind self) = Return hosts ->
  hosts !! i = Some h ->
  connect_host_error (connects w + i)%nat socket h = Some e ->
  connects_ok socket (take i hosts) w ->
  (get_socket self t w).1 = Raise e
  /\ heap (get_socket self t w).2
     = alter (sk_add_hosts (take i hosts)) socket (heap w)
  /\ connects (get_socket self t w).2 = (S i + connects w)%nat
  /\ outbound_sockets (get_socket self t w).2 !! str t = Some (socket, tm).
Proof.
  intros Hent [H0 H1] Hmm Hi He Hok.
  rewrite (get_socket_hit_unfold self _ _ _ _ Hent).
  destruct (Z.leb_spec 0 (zmq_target_expire self)); [|lia].
  destruct (Z.leb_spec (zmq_target_expire self) (clock (ticks w) - tm)); [|lia].
  rewrite get_hosts_and_connect_unfold. simpl. rewrite Hmm.
  rewrite (connect_loop_first_raise socket hosts
             (log_lookup t (kind self) (tick w)) i h e Hi He Hok).
  simpl. by rewrite Hent.
Qed.

Lemma grown_refl sk : grown sk sk.
Proof.
  repeat split; try done; exists []; by rewrite app_nil_r.
Qed.

Lemma grown_trans sk1 sk2 sk3 : grown sk1 sk2 -> grown sk2 sk3 -> grown sk1 sk3.
Proof.
  intros (Hc1 & Ht1 & (m1 & Hh1) & (a1 & Ha1) & Hcl1)
         (Hc2 & Ht2 & (m2 & Hh2) & (a2 & Ha2) & Hcl2).
  split; [congruence|]. split; [congruence|].
  split; [exists (m1 ++ m2); by rewrite Hh2, Hh1, app_assoc|].
  split; [exists (a1 ++ a2); by rewrite Ha2, Ha1, app_assoc|].
  auto.
Qed.

(** The heap after [get_socket] or [get_socket_to_broker]: the heap before,
    with the new socket if one was created, and links added to the socket
    the call works on. *)
Lemma call_heap_shape w c :
  is_cleanup c = false ->
  exists f s base,
    heap (do_call self w c) = alter f s base
    /\ (base = heap w \/ base = <[next_sock w := fresh_socket self]> (heap w))
    /\ (forall sk, sk_closed (f sk) = sk_closed sk)
    /\ (forall sk, grown sk (f sk)).
Proof.
  assert (Hhosts : forall linked sk, grown sk (sk_add_hosts linked sk)).
  { intros linked sk. repeat split; try done; simpl.
    - by exists linked.
    - exists []. by rewrite app_nil_r. }
  destruct c as [t|t|]; [| |done]; intros _; simpl.
  - destruct (outbound_sockets w !! str t) as [[socket tm]|] eqn:Hent.
    + rewrite (get_socket_hit_unfold self _ _ _ _ Hent).
      destruct (0 <=? zmq_target_expire self).
      2:{ exists (sk_add_hosts []), socket, (heap w). simpl.
          rewrite alter_add_hosts_nil. eauto. }
      destruct (zmq_target_expire self <=? clock (ticks w) - tm).
      2:{ exists (sk_add_hosts []), socket, (heap w). simpl.
          rewrite alter_add_hosts_nil. eauto. }
      pose proof (get_hosts_and_connect_effect self socket t (tick w))
        as (_ & _ & (linked & Hh) & _).
      exists (sk_add_hosts linked), socket, (heap w).
      destruct (_get_hosts_and_connect self socket t (tick w)) as [[[]|e] w1];
        simpl in *; eauto.
    + rewrite (get_socket_miss_unfold self _ _ Hent).
      pose proof (get_hosts_and_connect_effect self (next_sock w) t
                    (new_ZmqSocket self w).2) as (_ & _ & (linked & Hh) & _).
      exists (sk_add_hosts linked), (next_sock w),
             (<[next_sock w := fresh_socket self]> (heap w)).
      destruct (_get_hosts_and_connect self (next_sock w) t (new_ZmqSocket self w).2)
        as [[[]|e] w1]; simpl in *; eauto.
  - rewrite get_socket_to_broker_unfold. simpl.
    destruct (connect_address_error _ _ _); simpl.
    + exists (sk_add_hosts []), (next_sock w),
             (<[next_sock w := fresh_socket self]> (heap w)).
      rewrite alter_add_hosts_nil. eauto.
    + exists (sk_add_address (broker_address self)), (next_sock w),
             (<[next_sock w := fresh_socket self]> (heap w)).
      split; [done|]. split; [by right|]. split; [done|].
      intros sk. repeat split; try done; simpl.
      * exists []. by rewrite app_nil_r.
      * by exists [broker_address self].
Qed.

Lemma do_call_grown w c i sk :
  wf w -> heap w !! i = Some sk ->
  exists sk', heap (do_call self w c) !! i = Some sk' /\ grown sk sk'.
Proof.
  intros Hwf Hi. destruct (is_cleanup c) eqn:Hc.
  - destruct c; try done. simpl.
    destruct (cleanup_effect w) as (h' & -> & Ht & Hu). simpl.
    destruct (decide (i ∈ ((map_to_list (outbound_sockets w)).*2).*1)) as [Hin|Hin];
      rewrite <- tracked_elem_of in Hin.
    + rewrite (Ht i Hin), Hi. simpl. exists (sk_close sk). split; [done|].
      repeat split; try done; exists []; by rewrite app_nil_r.
    + rewrite (Hu i Hin), Hi. exists sk. split; [done | apply grown_refl].
  - destruct (call_heap_shape w c Hc) as (f & s & base & -> & Hbase & _ & Hg).
    assert (Hb : base !! i = Some sk).
    { destruct Hbase as [->| ->]; [done|].
      rewrite lookup_insert_ne; [done|].
      assert (i < next_sock w)%nat by (eapply wf_alloc; eauto). lia. }
    destruct (decide (s = i)) as [->|Hne].
    + rewrite lookup_alter_eq, Hb. simpl. eauto.
    + rewrite lookup_alter_ne by done. rewrite Hb. eauto using grown_refl.
Qed.

(** X4: a socket, once created, stays in the world through every later
    call, with its context and type; its links are only added to, never
    reset, and once closed it is never reopened. *)
Theorem socket_only_grows cs w i sk :
  wf w -> heap w !! i = Some sk ->
  exists sk', heap (run self cs w) !! i = Some sk' /\ grown sk sk'.
Proof.
  revert w sk. induction cs as [|c cs IH]; intros w sk Hwf Hi.
  - exists sk. split; [done | apply grown_refl].
  - destruct (do_call_grown w c i sk Hwf Hi) as (sk1 & H1 & Hg1).
    destruct (IH _ sk1 (do_call_wf self w c Hwf) H1) as (sk2 & H2 & Hg2).
    exists sk2. split; [exact H2 | eapply grown_trans; eauto].
Qed.

(** X5: only [cleanup] closes sockets: as long as it has not been called,
    every socket the manager has created is open. *)
Theorem open_until_cleanup cs i sk :
  forallb (fun c => negb (is_cleanup c)) cs = true ->
  heap (run self cs init_world) !! i = Some sk ->
  sk_closed sk = false.
Proof.
  assert (Hgen : forall cs w,
    (forall i sk, heap w !! i = Some sk -> sk_closed sk = false) ->
    forallb (fun c => negb (is_cleanup c)) cs = true ->
    forall i sk, heap (run self cs w) !! i = Some sk -> sk_closed sk = false).
  { clear cs i sk. induction cs as [|c cs IH]; intros w Hopen Hcs i sk; [by apply Hopen|].
    simpl in Hcs. apply andb_prop in Hcs as [Hc Hcs].
    apply negb_true_iff in Hc. simpl. apply IH; [|exact Hcs].
    clear i sk. intros i sk.
    destruct (call_heap_shape w c Hc) as (f & s & base & -> & Hbase & Hcl & _).
    assert (Hb : forall j skj, base !! j = Some skj -> sk_closed skj = false).
    { intros j skj. destruct Hbase as [->| ->]; [by apply Hopen|].
      destruct (decide (next_sock w = j)) as [<-|Hne].
      - rewrite lookup_insert_eq. by intros [= <-].
      - rewrite lookup_insert_ne by done. by apply Hopen. }
    destruct (decide (s = i)) as [->|Hne].
    - rewrite lookup_alter_eq. destruct (base !! i) as [ski|] eqn:Hbi; [|done].
      simpl. intros [= <-]. rewrite Hcl. by eapply Hb.
    - rewrite lookup_alter_ne by done. by apply Hb. }
  intros Hcs. apply (Hgen cs init_world); [|exact Hcs].
  intros j skj. unfold init_world. simpl. by rewrite lookup_empty.
Qed.

(** X6: when [get_socket] raises for a target without entry, the socket
    it created stays in the world, open and tracked nowhere: no later call
    reaches it and [cleanup] never closes it. *)
Theorem failed_miss_leaks_socket t w e :
  wf w ->
  outbound_sockets w !! str t = None ->
  (get_socket self t w).1 = Raise e ->
  let s := next_sock w in
  let w' := (get_socket self t w).2 in
  heap w !! s = None
  /\ (exists sk, heap w' !! s = Some sk /\ sk_closed sk = false)
  /\ ~ tracked w' s
  /\ (forall cs, heap (cleanup (run self cs w')).2 !! s = heap w' !! s).
Proof.
  intros Hwf Hent Hr s w'.
  assert (Hfresh : heap w !! s = None).
  { destruct (heap w !! s) eqn:Hh; [|done].
    assert (s < next_sock w)%nat by (apply (wf_alloc _ Hwf); eauto).
    subst s. lia. }
  assert (Hd : outbound_sockets w' = outbound_sockets w).
  { destruct (get_socket self t w) as [r w1] eqn:Hg. simpl in Hr. subst r.
    subst w'. simpl. eapply get_socket_raise_cache; eauto. }
  assert (Hun : ~ tracked w' s).
  { intros (key & tm & Hk). rewrite Hd in Hk.
    assert (s < next_sock w)%nat; [|subst s; lia].
    eapply wf_alloc; eauto. eapply wf_tracked; eauto. }
  assert (Hheap : exists linked,
            heap w' = alter (sk_add_hosts linked) s
                        (<[s := fresh_socket self]> (heap w))
            /\ next_sock w' = S s).
  { subst w' s. rewrite (get_socket_miss_unfold self _ _ Hent).
    pose proof (get_hosts_and_connect_effect self (next_sock w) t
                  (new_ZmqSocket self w).2) as (_ & Hn & (linked & Hh) & _).
    exists linked.
    destruct (_get_hosts_and_connect self (next_sock w) t (new_ZmqSocket self w).2)
      as [[[]|e1] w1]; simpl in *; eauto. }
  destruct Hheap as (linked & Hh & Hn).
  split; [exact Hfresh|]. split; [|split; [exact Hun|]].
  - exists (sk_add_hosts linked (fresh_socket self)).
    rewrite Hh, lookup_alter_eq, lookup_insert_eq. done.
  - intros cs.
    assert (Hlt : (s < next_sock w')%nat) by (rewrite Hn; lia).
    destruct (run_untracked self cs w' s Hlt Hun) as (Hrun & Hun2 & _).
    destruct (cleanup_effect (run self cs w')) as (h' & -> & _ & Hu).
    change (h' !! s = heap w' !! s).
    rewrite (Hu s Hun2). exact Hrun.
Qed.

(** X7: [get_socket_to_broker] never queries discovery and makes one
    connect call, to the broker address.  When that call succeeds the new
    socket is returned, linked to the broker address and to no host; when
    it raises, the exception goes to the caller and the socket stays
    tracked under the target's key, linked to nothing. *)
Theorem get_socket_to_broker_cases t w :
  let s := next_sock w in
  let r := (get_socket_to_broker self t w).1 in
  let w' := (get_socket_to_broker self t w).2 in
  lookups w' = lookups w
  /\ connects w' = S (connects w)
  /\ outbound_sockets w' !! str t = Some (s, clock (ticks w))
  /\ match connect_address_error (connects w) s (broker_address self) with
     | None =>
         r = Return s
         /\ heap w' = <[s := sk_add_address (broker_address self)
                               (fresh_socket self)]> (heap w)
     | Some e =>
         r = Raise e /\ heap w' = <[s := fresh_socket self]> (heap w)
     end.
Proof.
  intros s r w'. subst s r w'. rewrite get_socket_to_broker_unfold. simpl.
  destruct (connect_address_error _ _ _); simpl;
    rewrite lookup_insert_eq; repeat split; try done.
  by rewrite alter_insert_eq.
Qed.

(** X8: [cleanup] empties nothing: the dictionary is as before, so a
    [get_socket] for a cached target after [cleanup] still finds the entry
    and, when it returns, hands out the socket that [cleanup] closed. *)
Theorem get_socket_after_cleanup t w socket tm :
  wf w ->
  outbound_sockets w !! str t = Some (socket, tm) ->
  let w1 := (cleanup w).2 in
  outbound_sockets w1 = outbound_sockets w
  /\ is_closed w1 socket
  /\ (forall b, (get_socket self t w1).1 = Return b ->
                b = socket /\ is_closed (get_socket self t w1).2 socket).
Proof.
  intros Hwf Hent w1.
  destruct (wf_tracked _ Hwf _ _ _ Hent) as [sk Hsk].
  assert (Hw1 : outbound_sockets w1 = outbound_sockets w
                /\ heap w1 !! socket = Some (sk_close sk) /\ wf w1).
  { split; [|split]; [| |by apply cleanup_wf].
    - subst w1. by destruct (cleanup_effect w) as (h' & -> & _).
    - subst w1. destruct (cleanup_effect w) as (h' & -> & Ht & _). simpl.
      rewrite (Ht socket) by (by exists (str t), tm). by rewrite Hsk. }
  destruct Hw1 as (Hd & Hh & Hwf1).
  split; [exact Hd|]. split; [by exists (sk_close sk)|].
  intros b Hb.
  assert (Hent1 : outbound_sockets w1 !! str t = Some (socket, tm))
    by (by rewrite Hd).
  split.
  - rewrite (get_socket_hit_unfold self _ _ _ _ Hent1) in Hb.
    destruct (0 <=? _); [|by inversion Hb].
    destruct (_ <=? _); [|by inversion Hb].
    destruct (_get_hosts_and_connect self socket t (tick w1)) as [[[]|e] w2];
      by inversion Hb.
  - destruct (do_call_grown w1 (Call_get_socket t) socket (sk_close sk) Hwf1 Hh)
      as (sk' & Hsk' & (_ & _ & _ & _ & Hcl)).
    exists sk'. split; [exact Hsk'|]. by apply Hcl.
Qed.

Lemma do_call_shape w c t :
  c = Call_get_socket t \/ c = Call_get_socket_to_broker t ->
  step_shape self t w (do_call self w c).
Proof.
  intros [-> | ->]; simpl;
    [apply get_socket_shape | apply get_socket_to_broker_shape].
Qed.

Lemma do_call_entry w c key s tm :
  wf w -> monotone_clock ->
  outbound_sockets w !! key = Some (s, tm) ->
  exists s' tm',
    outbound_sockets (do_call self w c) !! key = Some (s', tm') /\ tm <= tm'.
Proof.
  intros Hwf Hmono Hent.
  assert (Hstep : forall t, step_shape self t w (do_call self w c) ->
            exists s' tm',
              outbound_sockets (do_call self w c) !! key = Some (s', tm')
              /\ tm <= tm').
  { intros t (s0 & f & _ & _ & Hdict).
    destruct Hdict as [Hd|(n & Hn & Hd)]; rewrite Hd.
    - exists s, tm. split; [done|lia].
    - destruct (decide (str t = key)) as [<-|Hne].
      + rewrite lookup_insert_eq. exists s0, (clock n). split; [done|].
        destruct (wf_stamp _ Hwf _ _ _ Hent) as (m & Hm & ->).
        apply Hmono. lia.
      + rewrite lookup_insert_ne by done. exists s, tm. split; [done|lia]. }
  destruct c as [t|t|].
  - apply (Hstep t), do_call_shape. by left.
  - apply (Hstep t), do_call_shape. by right.
  - simpl. destruct (cleanup_effect w) as (h' & -> & _). simpl.
    exists s, tm. split; [done|lia].
Qed.

(** X9: entries are never removed: a key that has an entry keeps one
    through every later call, [cleanup] included, and with a clock that
    never goes back its timestamp never decreases. *)
Theorem entry_survives cs w key s tm :
  wf w -> monotone_clock ->
  outbound_sockets w !! key = Some (s, tm) ->
  exists s' tm',
    outbound_sockets (run self cs w) !! key = Some (s', tm') /\ tm <= tm'.
Proof.
  intros Hwf Hmono. revert w s tm Hwf.
  induction cs as [|c cs IH]; intros w s tm Hwf Hent.
  - exists s, tm. split; [done|lia].
  - destruct (do_call_entry w c key s tm Hwf Hmono Hent) as (s1 & tm1 & H1 & Hle1).
    destruct (IH _ s1 tm1 (do_call_wf self w c Hwf) H1) as (s2 & tm2 & H2 & Hle2).
    exists s2, tm2. split; [exact H2|lia].
Qed.

(** X10: with [zmq_target_expire = 0] and a clock that never goes back,
    every call of [get_socket], in every state the manager can reach,
    queries discovery once for its target. *)
Theorem zero_expire_always_looks_up cs t :
  monotone_clock ->
  zmq_target_expire self = 0 ->
  let w := run self cs init_world in
  lookups (get_socket self t w).2 = lookups w ++ [(t, kind self)].
Proof.
  intros Hmono Hzero w.
  assert (Hwf : wf w) by apply run_wf, wf_init.
  destruct (outbound_sockets w !! str t) as [[socket tm]|] eqn:Hent.
  - apply (get_socket_expired_lookup self t w socket tm Hent).
    destruct (wf_stamp _ Hwf _ _ _ Hent) as (n & Hn & ->).
    assert (clock n <= clock (ticks w)) by (apply Hmono; lia).
    unfold expired. rewrite Hzero. lia.
  - rewrite (get_socket_miss_unfold self _ _ Hent).
    pose proof (get_hosts_and_connect_effect self (next_sock w) t
                  (new_ZmqSocket self w).2) as (Hl & _).
    destruct (_get_hosts_and_connect self (next_sock w) t (new_ZmqSocket self w).2)
      as [[[]|e] w1]; exact Hl.
Qed.

(** X11: a call for one target leaves the other keys alone: their entries
    and the sockets behind them are the same after [get_socket] or
    [get_socket_to_broker], returning or raising. *)
Theorem call_leaves_other_keys w c t key i tm :
  wf w ->
  c = Call_get_socket t \/ c = Call_get_socket_to_broker t ->
  key <> str t ->
  outbound_sockets w !! key = Some (i, tm) ->
  outbound_sockets (do_call self w c) !! key = Some (i, tm)
  /\ heap (do_call self w c) !! i = heap w !! i.
Proof.
  intros Hwf Hc Hne Hent.
  destruct (do_call_shape w c t Hc) as (s & f & Hheap & _ & Hdict).
  assert (Hi : (i < next_sock w)%nat).
  { eapply wf_alloc; eauto. eapply wf_tracked; eauto. }
  assert (Hs : s <> i).
  { destruct Hheap as [((tm0 & Hent0) & _) | (Hs & _)]; [|lia].
    intros ->. apply Hne. eapply wf_inj; eauto. }
  split.
  - destruct Hdict as [Hd|(n & _ & Hd)]; rewrite Hd; [done|].
    by rewrite lookup_insert_ne.
  - destruct Hheap as [(_ & Hh & _) | (Hs' & Hh & _)]; rewrite Hh.
    + by rewrite lookup_alter_ne.
    + rewrite lookup_alter_ne by done. rewrite lookup_insert_ne by lia. done.
Qed.

(** X12: a call queries discovery at most once, and only [get_socket]
    does, for its own target and the listener kind: nothing is retried. *)
Theorem at_most_one_lookup w c :
  lookups (do_call self w c) = lookups w
  \/ exists t, c = Call_get_socket t
               /\ lookups (do_call self w c) = lookups w ++ [(t, kind self)].
Proof.
  destruct c as [t|t|]; simpl.
  - destruct (outbound_sockets w !! str t) as [[socket tm]|] eqn:Hent.
    + rewrite (get_socket_hit_unfold self _ _ _ _ Hent).
      destruct (0 <=? _); [|by left].
      destruct (_ <=? _); [|by left].
      right. exists t. split; [done|].
      pose proof (get_hosts_and_connect_effect self socket t (tick w)) as (Hl & _).
      destruct (_get_hosts_and_connect self socket t (tick w)) as [[[]|e] w1];
        exact Hl.
    + right. exists t. split; [done|].
      rewrite (get_socket_miss_unfold self _ _ Hent).
      pose proof (get_hosts_and_connect_effect self (next_sock w) t
                    (new_ZmqSocket self w).2) as (Hl & _).
      destruct (_get_hosts_and_connect self (next_sock w) t (new_ZmqSocket self w).2)
        as [[[]|e] w1]; exact Hl.
  - left. rewrite get_socket_to_broker_unfold. simpl.
    by destruct (connect_address_error _ _ _).
  - left. by destruct (cleanup_effect w) as (h' & -> & _).
Qed.

Lemma string_length_app (p q : string) :
  String.length (p ++ q)%string = (String.length p + String.length q)%nat.
Proof. induction p as [|a p IH]; simpl; [done | by rewrite IH]. Qed.

Lemma string_app_cancel_r (p q r : string) :
  (p ++ r = q ++ r)%string -> p = q.
Proof.
  revert q. induction p as [|a p IH]; intros [|b q] Heq; simpl in *.
  - done.
  - apply (f_equal String.length) in Heq.
    change (String.length r = S (String.length (q ++ r)%string)) in Heq.
    rewrite (string_length_app q r) in Heq. lia.
  - apply (f_equal String.length) in Heq.
    change (S (String.length (p ++ r)%string) = String.length r) in Heq.
    rewrite (string_length_app p r) in Heq. lia.
  - change (String a (p ++ r)%string = String b (q ++ r)%string) in Heq.
    injection Heq as -> Heq. f_equal. by apply IH.
Qed.

(** X13: the message of [UnsupportedSendPattern] tells the pattern names
    apart: two exceptions with the same message were built from the same
    name. *)
Theorem unsupported_pattern_message_inj (p q : string) :
  exn_message (UnsupportedSendPattern p) = exn_message (UnsupportedSendPattern q) ->
  p = q.
Proof.
  change (exn_message (UnsupportedSendPattern p))
    with ("Sending pattern " ++ (p ++ " is unsupported."))%string.
  change (exn_message (UnsupportedSendPattern q))
    with ("Sending pattern " ++ (q ++ " is unsupported."))%string.
  intros Heq. apply (inj (String.app "Sending pattern ")) in Heq.
  by apply string_app_cancel_r in Heq.
Qed.

(** X14: [get_socket] refreshes in place: for a cached target it never
    creates a socket and, refreshing or not, returns the cached one; it
    creates a socket, one, exactly when the target has no entry, even if
    the call then raises. *)
Theorem get_socket_creates_on_miss_only t w :
  next_sock (get_socket self t w).2
  = (match outbound_sockets w !! str t with
     | Some _ => next_sock w
     | None => S (next_sock w)
     end)
  /\ (forall b, (get_socket self t w).1 = Return b -> b = working_socket t w).
Proof.
  unfold working_socket.
  destruct (outbound_sockets w !! str t) as [[socket tm]|] eqn:Hent.
  - rewrite (get_socket_hit_unfold self _ _ _ _ Hent).
    destruct (0 <=? _); [|split; [done | by intros b [= <-]]].
    destruct (_ <=? _); [|split; [done | by intros b [= <-]]].
    pose proof (get_hosts_and_connect_effect self socket t (tick w))
      as (_ & Hn & _).
    destruct (_get_hosts_and_connect self socket t (tick w)) as [[[]|e] w1];
      simpl in *; (split; [done|]); by intros b [= <-].
  - rewrite (get_socket_miss_unfold self _ _ Hent).
    pose proof (get_hosts_and_connect_effect self (next_sock w) t
                  (new_ZmqSocket self w).2) as (_ & Hn & _).
    destruct (_get_hosts_and_connect self (next_sock w) t (new_ZmqSocket self w).2)
      as [[[]|e] w1]; simpl in *; (split; [done|]); by intros b [= <-].
Qed.

Lemma get_socket_hit_next_sock t w socket tm :
  outbound_sockets w !! str t = Some (socket, tm) ->
  next_sock (get_socket self t w).2 = next_sock w.
Proof.
  intros Hent. rewrite (get_socket_hit_unfold self _ _ _ _ Hent).
  destruct (0 <=? _); [|done]. destruct (_ <=? _); [|done].
  pose proof (get_hosts_and_connect_effect self socket t (tick w)) as (_ & Hn & _).
  by destruct (_get_hosts_and_connect self socket t (tick w)) as [[[]|e] w1].
Qed.

Lemma get_socket_refresh_ok t w socket tm hosts :
  outbound_sockets w !! str t = Some (socket, tm) ->
  expired self w tm ->
  matchmaker_get_hosts (length (lookups w)) t (kind self) = Return hosts ->
  connects_ok socket hosts w ->
  (get_socket self t w).1 = Return socket
  /\ connects (get_socket self t w).2 = (length hosts + connects w)%nat
  /\ lookups (get_socket self t w).2 = lookups w ++ [(t, kind self)]
  /\ outbound_sockets (get_socket self t w).2
     = <[str t := (socket, clock (S (ticks w)))]> (outbound_sockets w).
Proof.
  intros Hent [H0 H1] Hmm Hok.
  rewrite (get_socket_hit_unfold self _ _ _ _ Hent).
  destruct (Z.leb_spec 0 (zmq_target_expire self)); [|lia].
  destruct (Z.leb_spec (zmq_target_expire self) (clock (ticks w) - tm)); [|lia].
  rewrite (get_hosts_and_connect_ok self socket t (tick w) hosts Hmm Hok). done.
Qed.

Lemma repeated_refresh_connects t hosts :
  monotone_clock ->
  zmq_target_expire self = 0 ->
  (forall n, matchmaker_get_hosts n t (kind self) = Return hosts) ->
  (forall n socket h, connect_host_error n socket h = None) ->
  forall k w socket tm,
    wf w ->
    outbound_sockets w !! str t = Some (socket, tm) ->
    let w' := run self (replicate k (Call_get_socket t)) w in
    connects w' = (k * length hosts + connects w)%nat
    /\ length (lookups w') = (k + length (lookups w))%nat
    /\ next_sock w' = next_sock w.
Proof.
  intros Hmono Hzero Hmm Hconn.
  induction k as [|k IH]; intros w socket tm Hwf Hent; [done|].
  assert (Hexp : expired self w tm).
  { destruct (wf_stamp _ Hwf _ _ _ Hent) as (n & Hn & ->).
    assert (clock n <= clock (ticks w)) by (apply Hmono; lia).
    unfold expired. rewrite Hzero. lia. }
  destruct (get_socket_refresh_ok t w socket tm hosts Hent Hexp (Hmm _))
    as (_ & Hc & Hl & Hd); [intros i h _; apply Hconn|].
  pose proof (do_call_wf self w (Call_get_socket t) Hwf) as Hwf1.
  simpl in Hwf1.
  destruct (IH (get_socket self t w).2 socket (clock (S (ticks w))) Hwf1)
    as (Hc' & Hl' & Hn'); [by rewrite Hd, lookup_insert_eq|].
  simpl. rewrite Hc', Hl', Hn', Hc, Hl, length_app.
  rewrite (get_socket_hit_next_sock t w socket tm Hent). simpl.
  repeat split; lia.
Qed.

(** X15: a refresh does not look at what the socket is connected to: it
    calls [connect_to_host] for every host discovery returns, known or
    not.  With [zmq_target_expire = 0], a clock that never goes back, a
    discovery that always answers [hosts] and connect calls that succeed,
    [k + 1] calls of [get_socket] for a target on a new manager create one
    socket, query discovery [k + 1] times and make [k + 1] times
    [len(hosts)] connect calls. *)
Theorem refresh_connects_again t hosts k :
  monotone_clock ->
  zmq_target_expire self = 0 ->
  (forall n, matchmaker_get_hosts n t (kind self) = Return hosts) ->
  (forall n socket h, connect_host_error n socket h = None) ->
  let w := run self (replicate (S k) (Call_get_socket t)) init_world in
  next_sock w = 1%nat
  /\ length (lookups w) = S k
  /\ connects w = (S k * length hosts)%nat.
Proof.
  intros Hmono Hzero Hmm Hconn w.
  set (w1 := (get_socket self t init_world).2).
  assert (Hw1 : wf w1) by apply (do_call_wf self init_world (Call_get_socket t)), wf_init.
  assert (Hfirst : get_socket self t init_world
                   = (Return 0%nat,
                      set_outbound_sockets
                        (<[str t := (0%nat, clock 0)]> ∅)
                        (tick (after_connects 0%nat hosts (length hosts)
                                 (log_lookup t (kind self)
                                    (new_ZmqSocket self init_world).2))))).
  { rewrite (get_socket_miss_unfold self t init_world) by apply lookup_empty.
    rewrite (get_hosts_and_connect_ok self (next_sock init_world) t
               (new_ZmqSocket self init_world).2 hosts (Hmm _)); [done|].
    intros i h _. apply Hconn. }
  assert (Hent : outbound_sockets w1 !! str t = Some (0%nat, clock 0)).
  { subst w1. rewrite Hfirst. simpl. by rewrite lookup_insert_eq. }
  destruct (repeated_refresh_connects t hosts Hmono Hzero Hmm Hconn k w1 0%nat
              (clock 0) Hw1 Hent) as (Hc & Hl & Hn).
  change w with (run self (replicate k (Call_get_socket t)) w1).
  rewrite Hc, Hl, Hn. subst w1. rewrite Hfirst. simpl.
  repeat split; lia.
Qed.

End Further.

(** * The further properties at work on the concrete setting *)

Lemma example_clock_monotone : monotone_clock (E := example_env).
Proof.
  intros i j Hij. simpl.
  destruct i as [|[|i]], j as [|[|j]]; simpl; lia.
Qed.

Lemma failed_refresh_keeps_partial_links_witness :
  let w := run (E := refusing_later_env) (example_manager 0)
               [Call_get_socket "topic-A"] init_world in
  let w' := (get_socket (E := refusing_later_env) (example_manager 0)
               "topic-A" w).2 in
  (sk_hosts <$> heap w' !! 0%nat) = Some ["host-1"; "host-2"; "host-1"]
  /\ outbound_sockets w' !! "topic-A" = Some (0%nat, 0).
Proof.
  intros w w'.
  destruct (failed_refresh_keeps_partial_links (E := refusing_later_env)
              (example_manager 0) "topic-A" w 0%nat 0 ["host-1"; "host-2"]
              1%nat "host-2" ConnectError) as (_ & Hh & _ & Hd).
  - vm_compute. reflexivity.
  - split; vm_compute; discriminate.
  - reflexivity.
  - reflexivity.
  - vm_compute. reflexivity.
  - intros [|i] h Hi; [reflexivity | discriminate Hi].
  - split; [|exact Hd]. subst w'. rewrite Hh. vm_compute. reflexivity.
Defined.

Lemma socket_only_grows_witness :
  let w := run (E := example_env) (example_manager 10)
               [Call_get_socket "topic-A"] init_world in
  exists sk',
    heap (run (E := example_env) (example_manager 10)
            [Call_get_socket_to_broker "topic-B"; Call_cleanup] w) !! 0%nat
    = Some sk'
    /\ grown (sk_add_hosts ["host-1"; "host-2"]
                (fresh_socket (example_manager 10))) sk'.
Proof.
  intros w.
  apply (socket_only_grows (E := example_env) (example_manager 10)
           [Call_get_socket_to_broker "topic-B"; Call_cleanup] w 0%nat).
  - apply run_wf, wf_init.
  - vm_compute. reflexivity.
Defined.

Lemma open_until_cleanup_witness :
  sk_closed (sk_add_address "tcp://broker:9501"
               (fresh_socket (example_manager 10))) = false.
Proof.
  apply (open_until_cleanup (E := example_env) (example_manager 10)
           [Call_get_socket "topic-A"; Call_get_socket_to_broker "topic-B"]
           1%nat).
  - reflexivity.
  - vm_compute. reflexivity.
Defined.

Lemma failed_miss_leaks_socket_witness :
  let w' := (get_socket (E := no_discovery_env) (example_manager 10)
               "topic-A" init_world).2 in
  (exists sk, heap w' !! 0%nat = Some sk /\ sk_closed sk = false)
  /\ ~ tracked w' 0%nat
  /\ (sk_closed <$> heap (cleanup w').2 !! 0%nat) = Some false.
Proof.
  intros w'.
  destruct (failed_miss_leaks_socket (E := no_discovery_env) (example_manager 10)
              "topic-A" init_world DiscoveryError) as (_ & Hex & Hun & Hcl).
  - apply wf_init.
  - vm_compute. reflexivity.
  - vm_compute. reflexivity.
  - split; [exact Hex|]. split; [exact Hun|].
    transitivity (sk_closed <$> heap w' !! 0%nat).
    + exact (f_equal (fun o : option ZmqSocket => sk_closed <$> o) (Hcl [])).
    + vm_compute. reflexivity.
Defined.

Lemma get_socket_after_cleanup_witness :
  let w := run (E := example_env) (example_manager 10)
               [Call_get_socket "topic-A"] init_world in
  is_closed (cleanup w).2 0%nat
  /\ is_closed (get_socket (E := example_env) (example_manager 10)
                  "topic-A" (cleanup w).2).2 0%nat.
Proof.
  intros w.
  destruct (get_socket_after_cleanup (E := example_env) (example_manager 10)
              "topic-A" w 0%nat 0) as (_ & Hcl & Hget).
  - apply run_wf, wf_init.
  - vm_compute. reflexivity.
  - split; [exact Hcl|]. apply (Hget 0%nat). vm_compute. reflexivity.
Defined.

Lemma entry_survives_witness :
  let w := run (E := example_env) (example_manager 10)
               [Call_get_socket "topic-A"] init_world in
  exists s' tm',
    outbound_sockets
      (run (E := example_env) (example_manager 10)
         [Call_get_socket_to_broker "topic-A"; Call_cleanup] w) !! "topic-A"
    = Some (s', tm')
    /\ 0 <= tm'.
Proof.
  intros w.
  apply (entry_survives (E := example_env) (example_manager 10)
           [Call_get_socket_to_broker "topic-A"; Call_cleanup] w "topic-A" 0%nat 0).
  - apply run_wf, wf_init.
  - exact example_clock_monotone.
  - vm_compute. reflexivity.
Defined.

Lemma zero_expire_always_looks_up_witness :
  let w := run (E := example_env) (example_manager 0)
               [Call_get_socket "topic-A"] init_world in
  lookups (get_socket (E := example_env) (example_manager 0) "topic-A" w).2
  = lookups w ++ [("topic-A", "ROUTER")].
Proof.
  apply (zero_expire_always_looks_up (E := example_env) (example_manager 0)
           [Call_get_socket "topic-A"] "topic-A").
  - exact example_clock_monotone.
  - reflexivity.
Defined.

Lemma call_leaves_other_keys_witness :
  let w := run (E := example_env) (example_manager 10)
               [Call_get_socket "topic-A"] init_world in
  outbound_sockets (do_call (E := example_env) (example_manager 10) w
                      (Call_get_socket "topic-B")) !! "topic-A"
  = Some (0%nat, 0)
  /\ heap (do_call (E := example_env) (example_manager 10) w
             (Call_get_socket "topic-B")) !! 0%nat
     = heap w !! 0%nat.
Proof.
  intros w.
  apply (call_leaves_other_keys (E := example_env) (example_manager 10) w
           (Call_get_socket "topic-B") "topic-B" "topic-A" 0%nat 0).
  - apply run_wf, wf_init.
  - by left.
  - discriminate.
  - vm_compute. reflexivity.
Defined.

Lemma unsupported_pattern_message_inj_witness : "fanout" = "fanout".
Proof.
  apply (unsupported_pattern_message_inj "fanout" "fanout"). reflexivity.
Defined.

Lemma get_socket_creates_on_miss_only_witness :
  0%nat = working_socket (E := example_env) "topic-A" init_world.
Proof.
  apply (proj2 (get_socket_creates_on_miss_only (E := example_env)
                  (example_manager 10) "topic-A" init_world)).
  vm_compute. reflexivity.
Defined.

Lemma refresh_connects_again_witness :
  let w := run (E := example_env) (example_manager 0)
               (replicate 3 (Call_get_socket "topic-A")) init_world in
  next_sock w = 1%nat /\ length (lookups w) = 3%nat /\ connects w = 6%nat.
Proof.
  apply (refresh_connects_again (E := example_env) (example_manager 0)
           "topic-A" ["host-1"; "host-2"] 2).
  - exact example_clock_monotone.
  - reflexivity.
  - intros n. reflexivity.
  - intros n socket h. reflexivity.
Defined.
